(** * Rock-Paper-Scissors simulator: a shallow embedding of [rps_simulator.cpp]

    The C++ program keeps every position, velocity and radius in a [float].
    The embedding is written once over an interface [FloatOps] that lists
    the float operations the source uses, and is instantiated twice:

    - [binary32]: IEEE 754 single precision, round to nearest even, through
      the Standard Library's [SpecFloat] with [prec = 24] and [emax = 128].
      This is the arithmetic of the program; it computes.  Every operation
      rounds on its own: no fused multiply-add, no wider intermediate
      format.
    - [R]: exact real arithmetic, the reading in which the specification
      calls positions "real-valued".

    Everything that only concerns kinds and counts is proved for any
    instance of the interface.

    Layout: the program, the vocabulary of its properties and a few
    concrete arenas come first; then facts about [SpecFloat], about kinds
    and about positions; then the properties themselves. *)

From Stdlib Require Import ZArith Bool Lia Reals Lra.
From Stdlib Require Import SpecFloat.
From Stdlib Require Import Ascii.
From stdpp Require Import base list strings.


Local Open Scope Z_scope.

(** ** The arithmetic of [float] *)

Class FloatOps (F : Type) := {
  fadd : F -> F -> F;
  fsub : F -> F -> F;
  fmul : F -> F -> F;
  fdiv : F -> F -> F;
  fneg : F -> F;
  fsqrt : F -> F;
  flt : F -> F -> bool;          (* a <  b *)
  fle : F -> F -> bool;          (* a <= b *)
  of_int : Z -> F                (* an integral literal, converted *)
}.

Declare Scope float_scope.
Delimit Scope float_scope with flt.
Infix "+" := fadd : float_scope.
Infix "-" := fsub : float_scope.
Infix "*" := fmul : float_scope.
Infix "/" := fdiv : float_scope.
Notation "- a" := (fneg a) : float_scope.
Infix "<?" := flt : float_scope.
Infix "<=?" := fle : float_scope.
(* C++ spells [b <= a] as [a >= b] and [b < a] as [a > b] *)
Notation "a >=? b" := (fle b a) : float_scope.
Notation "a >? b" := (flt b a) : float_scope.

(** [std::min(a, b)] is [(b < a) ? b : a] and [std::max(a, b)] is
    [(a < b) ? b : a]. *)
Definition std_min {F} `{FloatOps F} (a b : F) : F := if flt b a then b else a.
Definition std_max {F} `{FloatOps F} (a b : F) : F := if flt a b then b else a.

(** *** IEEE 754 binary32 *)

Module B32.
Definition prec : Z := 24.
Definition emax : Z := 128.
Definition of_Z (z : Z) : spec_float := binary_normalize prec emax z 0 false.

(** Representable in binary32. *)
Definition valid (f : spec_float) : bool := valid_binary prec emax f.

(** A representable zero or finite number. *)
Definition finite (f : spec_float) : bool :=
  match f with
  | S754_zero _ | S754_finite _ _ _ => valid f
  | _ => false
  end.

(** A representable finite number above zero. *)
Definition positive (f : spec_float) : bool :=
  match f with
  | S754_finite false _ _ => valid f
  | _ => false
  end.
End B32.

Definition binary32 : Type := spec_float.

#[export] Instance binary32_ops : FloatOps binary32 := {|
  fadd := SFadd B32.prec B32.emax;
  fsub := SFsub B32.prec B32.emax;
  fmul := SFmul B32.prec B32.emax;
  fdiv := SFdiv B32.prec B32.emax;
  fneg := SFopp;
  fsqrt := SFsqrt B32.prec B32.emax;
  flt := SFltb;
  fle := SFleb;
  of_int := B32.of_Z
|}.

(** *** Exact real arithmetic *)

Definition Rltb (a b : R) : bool := if Rlt_dec a b then true else false.
Definition Rleb (a b : R) : bool := if Rle_dec a b then true else false.

#[export] Instance real_ops : FloatOps R := {|
  fadd := Rplus;
  fsub := Rminus;
  fmul := Rmult;
  fdiv := Rdiv;
  fneg := Ropp;
  fsqrt := sqrt;
  flt := Rltb;
  fle := Rleb;
  of_int := IZR
|}.

(** ** [enum class ObjectType] *)

Inductive ObjectType : Set := ROCK | PAPER | SCISSORS.

#[export] Instance ObjectType_eq_dec : EqDecision ObjectType.
Proof. solve_decision. Defined.

(** ** Random sources

    [std::mt19937] and [std::uniform_real_distribution] are library code.
    A generator is modelled by the values its successive draws return. *)

Record Gen (F : Type) := MkGen { next : nat -> F; used : nat }.
Arguments MkGen {F} _ _.
Arguments next {F} _ _.
Arguments used {F} _.

Definition draw {F} (g : Gen F) : F * Gen F :=
  (next g (used g), MkGen (next g) (S (used g))).

(** ** Order of evaluation

    The two start coordinates of an object are drawn inside the argument
    list of one call, [emplace_back(type, xDist(rng), yDist(rng))], and
    C++ does not say which argument is evaluated first.  The choice is a
    parameter of the model: [x_drawn_first i] tells whether the [x]
    coordinate of the object created at index [i] gets the earlier of its
    two draws. *)

Class EvaluationOrder := x_drawn_first : nat -> bool.

Definition left_to_right : EvaluationOrder := fun _ => true.
Definition right_to_left : EvaluationOrder := fun _ => false.

(** ** [class GameObject] *)

Module GameObject.
Record t (F : Type) := Make {
  type : ObjectType;
  x : F; y : F;
  vx : F; vy : F;
  radius : F
}.
Arguments Make {F} _ _ _ _ _ _.
Arguments type {F} _.
Arguments x {F} _.
Arguments y {F} _.
Arguments vx {F} _.
Arguments vy {F} _.
Arguments radius {F} _.

Section Methods.
Context {F : Type} `{FloatOps F}.
Local Open Scope float_scope.

(** The constructor draws [vx] then [vy] from the function-local
    [static] generator [gen], which is shared by every object of the
    process; [radius] is [5.0f]. *)
Definition new (ty : ObjectType) (startX startY : F) (gen : Gen F)
  : t F * Gen F :=
  let (vx0, gen1) := draw gen in
  let (vy0, gen2) := draw gen1 in
  (Make ty startX startY vx0 vy0 (of_int 5), gen2).

Definition update (o : t F) : t F :=
  Make (type o) (x o + vx o) (y o + vy o) (vx o) (vy o) (radius o).

Definition collidesWith (o other : t F) : bool :=
  let dx := x o - x other in
  let dy := y o - y other in
  let distance := fsqrt (dx * dx + dy * dy) in
  distance <? (radius o + radius other).

Definition handleBoundaries (width height : F) (o : t F) : t F :=
  let o1 :=
    if (x o - radius o <=? of_int 0) || (x o + radius o >=? width)
    then Make (type o)
              (std_max (radius o) (std_min (width - radius o) (x o)))
              (y o) (- vx o) (vy o) (radius o)
    else o in
  if (y o1 - radius o1 <=? of_int 0) || (y o1 + radius o1 >=? height)
  then Make (type o1) (x o1)
            (std_max (radius o1) (std_min (height - radius o1) (y o1)))
            (vx o1) (- vy o1) (radius o1)
  else o1.
End Methods.
End GameObject.

(** ** [class GameRules] *)

Module GameRules.
Definition determineWinner (type1 type2 : ObjectType) : ObjectType :=
  if decide (type1 = type2) then type1
  else match type1 with
       | ROCK => if decide (type2 = SCISSORS) then ROCK else PAPER
       | PAPER => if decide (type2 = ROCK) then PAPER else SCISSORS
       | SCISSORS => if decide (type2 = PAPER) then SCISSORS else ROCK
       end.

Section Methods.
Context {F : Type} `{FloatOps F}.
Local Open Scope float_scope.
Import GameObject.

(** Both arguments are references; the pair of updated objects is
    returned. *)
Definition resolveCollision (obj1 obj2 : t F) : t F * t F :=
  let winner := determineWinner (type obj1) (type obj2) in
  let dx := x obj1 - x obj2 in
  let dy := y obj1 - y obj2 in
  let distance := fsqrt (dx * dx + dy * dy) in
  if distance >? of_int 0 then
    let separationForce := of_int 2 in
    (Make winner (x obj1 + (dx / distance) * separationForce)
                 (y obj1 + (dy / distance) * separationForce)
                 (vx obj1) (vy obj1) (radius obj1),
     Make winner (x obj2 - (dx / distance) * separationForce)
                 (y obj2 - (dy / distance) * separationForce)
                 (vx obj2) (vy obj2) (radius obj2))
  else
    (Make winner (x obj1) (y obj1) (vx obj1) (vy obj1) (radius obj1),
     Make winner (x obj2) (y obj2) (vx obj2) (vy obj2) (radius obj2)).
End Methods.
End GameRules.

(** ** [class RPSSimulator] *)

Module RPSSimulator.
Record t (F : Type) := Make {
  objects : list (GameObject.t F);
  boxWidth : F; boxHeight : F;
  rng : Gen F;
  generation : Z
}.
Arguments Make {F} _ _ _ _ _.
Arguments objects {F} _.
Arguments boxWidth {F} _.
Arguments boxHeight {F} _.
Arguments rng {F} _.
Arguments generation {F} _.

Section Methods.
Context {F : Type} `{FloatOps F} {order : EvaluationOrder}.

(** *** Initialization *)

(** [objects.emplace_back(ty, xDist(rng), yDist(rng))]: two draws from
    the simulator's [rng], in the order in which the two arguments are
    evaluated, then the constructor's two draws from the process-wide
    velocity generator. *)
Definition emplace_back (ty : ObjectType)
    (st : list (GameObject.t F) * Gen F * Gen F)
  : list (GameObject.t F) * Gen F * Gen F :=
  let '(objs, rng0, vel0) := st in
  let (first, rng1) := draw rng0 in
  let (second, rng2) := draw rng1 in
  let startX := if x_drawn_first (length objs) then first else second in
  let startY := if x_drawn_first (length objs) then second else first in
  let (o, vel1) := GameObject.new ty startX startY vel0 in
  (objs ++ [o], rng2, vel1).

Fixpoint initialize_loop (n : nat)
    (st : list (GameObject.t F) * Gen F * Gen F)
  : list (GameObject.t F) * Gen F * Gen F :=
  match n with
  | O => st
  | S n' =>
      initialize_loop n'
        (emplace_back SCISSORS (emplace_back PAPER (emplace_back ROCK st)))
  end.

(** [initializeObjects]: clear, then five rounds of Rock, Paper,
    Scissors.  The second component is the velocity generator after the
    fifteen constructions. *)
Definition initializeObjects (s : t F) (vel : Gen F) : t F * Gen F :=
  let '(objs, rng', vel') := initialize_loop 5 ([], rng s, vel) in
  (Make objs (boxWidth s) (boxHeight s) rng' (generation s), vel').

(** The constructor.  [seeded] is the simulator's own generator as
    [rng.seed(steady_clock...)] leaves it; [vel] is the state of the
    [static] generator inside [GameObject]'s constructor. *)
Definition new (width height : F) (seeded vel : Gen F) : t F * Gen F :=
  initializeObjects (Make [] width height seeded 0) vel.

(** *** One generation *)

Definition move (width height : F) (o : GameObject.t F) : GameObject.t F :=
  GameObject.handleBoundaries width height (GameObject.update o).

(** The body of the inner collision loop for the pair [(i, j)]. *)
Definition collide (i j : nat) (objs : list (GameObject.t F))
  : list (GameObject.t F) :=
  match objs !! i, objs !! j with
  | Some a, Some b =>
      if GameObject.collidesWith a b then
        let (a', b') := GameRules.resolveCollision a b in
        <[j := b']> (<[i := a']> objs)
      else objs
  | _, _ => objs
  end.

(** [for (j = ...; j < objects.size(); j++)], with [todo] iterations
    left. *)
Fixpoint inner_loop (i j todo : nat) (objs : list (GameObject.t F))
  : list (GameObject.t F) :=
  match todo with
  | O => objs
  | S todo' => inner_loop i (S j) todo' (collide i j objs)
  end.

Fixpoint outer_loop (i todo : nat) (objs : list (GameObject.t F))
  : list (GameObject.t F) :=
  match todo with
  | O => objs
  | S todo' =>
      outer_loop (S i) todo'
        (inner_loop i (S i) (length objs - S i)%nat objs)
  end.

Definition collisions (objs : list (GameObject.t F))
  : list (GameObject.t F) :=
  outer_loop 0 (length objs) objs.

Definition motion (s : t F) : list (GameObject.t F) :=
  map (move (boxWidth s) (boxHeight s)) (objects s).

(** [generation] is an [int] and [generation++] on [INT_MAX] is a signed
    overflow, which C++ leaves undefined.  The counter is kept in [Z]
    here: the model follows the source as long as the counter stays in
    the range of [int], as it does in [main], where it starts at 0 and
    the loop stops at 1000. *)
Definition update (s : t F) : t F :=
  Make (collisions (motion s)) (boxWidth s) (boxHeight s) (rng s)
       (generation s + 1).

(** *** Observation *)

Definition count_step (c : Z * Z * Z) (o : GameObject.t F) : Z * Z * Z :=
  let '(rocks, papers, scissors) := c in
  match GameObject.type o with
  | ROCK => (rocks + 1, papers, scissors)
  | PAPER => (rocks, papers + 1, scissors)
  | SCISSORS => (rocks, papers, scissors + 1)
  end.

Definition getTypeCounts (s : t F) : Z * Z * Z :=
  fold_left count_step (objects s) (0, 0, 0).

Definition isGameOver (s : t F) : bool :=
  let '(rocks, papers, scissors) := getTypeCounts s in
  let nonZeroCount :=
    Z.b2z (0 <? rocks) + Z.b2z (0 <? papers) + Z.b2z (0 <? scissors) in
  nonZeroCount <=? 1.

Definition getWinner (s : t F) : ObjectType :=
  let '(rocks, papers, scissors) := getTypeCounts s in
  if 0 <? rocks then ROCK
  else if 0 <? papers then PAPER
  else if 0 <? scissors then SCISSORS
  else ROCK.

(** [n] successive calls of [update]. *)
Definition ticks (n : nat) (s : t F) : t F := Nat.iter n update s.
End Methods.
End RPSSimulator.

(** What a call can do.  Nothing in the program throws, asserts, aborts or
    exits: every method of the three classes runs to its [return]. *)
Inductive outcome (A : Type) : Type :=
| Returns (a : A)
| Fatal.
Arguments Returns {A} _.
Arguments Fatal {A}.

Definition call_getWinner {F} (s : RPSSimulator.t F) : outcome ObjectType :=
  Returns (RPSSimulator.getWinner s).



(** * Printing and the driver *)

(** ** [typeToString], [typeToSymbol]

    The [return] after each [switch] is reached only by a value outside
    the enumeration, which [ObjectType] does not have. *)

Definition typeToString (type : ObjectType) : string :=
  match type with
  | ROCK => "Rock"
  | PAPER => "Paper"
  | SCISSORS => "Scissors"
  end.

Definition typeToSymbol (type : ObjectType) : ascii :=
  match type with
  | ROCK => "R"%char
  | PAPER => "P"%char
  | SCISSORS => "S"%char
  end.

(** ** [static_cast<int>]

    Conversion of a float to [int] truncates toward zero; it is undefined
    ([None]) when the truncated value is not an [int], and for infinities
    and NaN. *)

Class FloatToInt (F : Type) := to_int : F -> option Z.

Definition INT_MIN : Z := - 2 ^ 31.
Definition INT_MAX : Z := 2 ^ 31 - 1.

Definition binary32_to_int (f : binary32) : option Z :=
  match f with
  | S754_zero _ => Some 0
  | S754_finite s m e =>
      let t := cond_Zopp s (if 0 <=? e then Z.pos m * 2 ^ e
                            else Z.pos m / 2 ^ (- e)) in
      if (INT_MIN <=? t) && (t <=? INT_MAX) then Some t else None
  | _ => None
  end.

#[export] Instance binary32_FloatToInt : FloatToInt binary32 := binary32_to_int.

(** ** Output

    What is written to [std::cout] is kept as the sequence of operands of
    [<<]: text, a character, an [int], a [float].  How the stream formats
    numbers is left to the stream. *)

Inductive chunk (F : Type) : Type :=
| Str (s : string)
| Chr (c : ascii)
| Int (z : Z)
| Flt (f : F).
Arguments Str {F} _.
Arguments Chr {F} _.
Arguments Int {F} _.
Arguments Flt {F} _.

(** The newline character and [std::string(50, '=')]. *)
Definition nl : string := String (ascii_of_nat 10) EmptyString.
Definition rule50 : string :=
  "==================================================".

(** ** [RPSSimulator::displayState] *)

Module Display.
Section Methods.
Context {F : Type} `{FloatOps F} `{FloatToInt F}.
Import RPSSimulator.

(** The innermost loop of the grid, for the cell [(x, y)]: the kind of the
    first object whose cell it is, if any.  Both conversions of an object
    are made before the comparison. *)
Fixpoint find_object (width height : F) (x y : Z)
    (objs : list (GameObject.t F)) : option (option ObjectType) :=
  match objs with
  | [] => Some None
  | obj :: rest =>
      match to_int (fdiv (fmul (GameObject.x obj) (of_int 40)) width) with
      | None => None
      | Some objX =>
          match to_int (fdiv (fmul (GameObject.y obj) (of_int 20)) height) with
          | None => None
          | Some objY =>
              if (objX =? x) && (objY =? y)
              then Some (Some (GameObject.type obj))
              else find_object width height x y rest
          end
      end
  end.

(** What is printed for the cell [(x, y)]. *)
Definition cell (s : t F) (x y : Z) : option (chunk F) :=
  match find_object (boxWidth s) (boxHeight s) x y (objects s) with
  | None => None
  | Some (Some type) => Some (Chr (typeToSymbol type))
  | Some None => Some (Str ".")
  end.

(** [for (int x = ...; x < 40; x++)], with [todo] iterations left; the
    cells are appended to [out]. *)
Fixpoint row_loop (s : t F) (y x : Z) (todo : nat) (out : list (chunk F))
  : option (list (chunk F)) :=
  match todo with
  | O => Some out
  | S todo' =>
      match cell s x y with
      | None => None
      | Some c => row_loop s y (x + 1) todo' (out ++ [c])
      end
  end.

(** One line of the grid, with its newline. *)
Definition row (s : t F) (y : Z) : option (list (chunk F)) :=
  match row_loop s y 0 40 [] with
  | None => None
  | Some cells => Some (cells ++ [Str nl])
  end.

(** [for (int y = ...; y < 20; y++)]; the lines are kept apart. *)
Fixpoint grid_loop (s : t F) (y : Z) (todo : nat)
    (rows : list (list (chunk F))) : option (list (list (chunk F))) :=
  match todo with
  | O => Some rows
  | S todo' =>
      match row s y with
      | None => None
      | Some r => grid_loop s (y + 1) todo' (rows ++ [r])
      end
  end.

Definition grid (s : t F) : option (list (list (chunk F))) :=
  grid_loop s 0 20 [].

(** What precedes the grid. *)
Definition header (s : t F) : list (chunk F) :=
  let '(rocks, papers, scissors) := getTypeCounts s in
  [Str nl; Str rule50; Str nl;
   Str "Generation: "; Int (generation s); Str nl;
   Str "Rocks: "; Int rocks; Str " | Papers: "; Int papers;
   Str " | Scissors: "; Int scissors; Str nl;
   Str (nl +:+ "Simulation Box ("); Flt (boxWidth s); Str "x";
   Flt (boxHeight s); Str ("):" +:+ nl)].

Definition displayState (s : t F) : option (list (chunk F)) :=
  match grid s with
  | None => None
  | Some rows => Some (header s ++ concat rows)
  end.
End Methods.
End Display.

(** ** [main] *)

Module Driver.
Section Methods.
Context {F : Type} `{FloatOps F} `{FloatToInt F} {order : EvaluationOrder}.
Import RPSSimulator.

(** The simulation loop, with [todo = maxGenerations - gen] iterations
    left.  The pause after each display is not modelled. *)
Fixpoint main_loop (todo : nat) (gen : Z) (simulator : t F)
    (out : list (chunk F)) : option (t F * list (chunk F)) :=
  match todo with
  | O => Some (simulator, out)
  | S todo' =>
      if isGameOver simulator then Some (simulator, out)
      else
        let simulator' := update simulator in
        if Z.rem gen 10 =? 0 then
          match Display.displayState simulator' with
          | None => None
          | Some shown =>
              main_loop todo' (gen + 1) simulator' (out ++ shown)
          end
        else main_loop todo' (gen + 1) simulator' out
  end.

(** The lines that close the run. *)
Definition verdict (simulator : t F) : list (chunk F) :=
  if isGameOver simulator
  then [Str (nl +:+ "Winner: "); Str (typeToString (getWinner simulator));
        Str ("!" +:+ nl)]
  else [Str (nl +:+ "Simulation ended after maximum generations." +:+ nl)].

(** What [main] writes, given the simulator it constructs: the banner
    (written before the construction), the initial display, the displays
    of the loop, the closing lines, the final display and the verdict. *)
Definition report (maxGenerations : nat) (simulator : t F)
  : option (list (chunk F)) :=
  match Display.displayState simulator with
  | None => None
  | Some first =>
      match main_loop maxGenerations 0 simulator [] with
      | None => None
      | Some (final, shown) =>
          match Display.displayState final with
          | None => None
          | Some last =>
              Some ([Str ("Rock Paper Scissors Simulator" +:+ nl);
                     Str ("=============================" +:+ nl +:+ nl);
                     Str ("Starting simulation with 5 Rocks, 5 Papers, and 5 Scissors..." +:+ nl);
                     Str ("Legend: R = Rock, P = Paper, S = Scissors" +:+ nl)]
                    ++ first ++ shown
                    ++ [Str nl; Str rule50; Str nl;
                        Str ("SIMULATION COMPLETE!" +:+ nl)]
                    ++ last ++ verdict final)
          end
      end
  end.

(** [main], given the two generators as its environment provides them;
    [maxGenerations] is 1000 in the program. *)
Definition run (maxGenerations : nat) (seeded vel : Gen F)
  : option (list (chunk F)) :=
  report maxGenerations (new (of_int 100) (of_int 100) seeded vel).1.

Definition main (seeded vel : Gen F) : option (list (chunk F)) :=
  run 1000 seeded vel.
End Methods.
End Driver.

(** * Vocabulary of the properties *)

(** ** Values of binary floats

    [mag] is the magnitude of a mantissa/exponent pair and [SF2Z] the value
    of a finite float, both in units of [2^emin], the spacing of the
    smallest subnormals: every finite float is an integer in that unit. *)

Definition mag (prec emax : Z) (m : positive) (e : Z) : Z :=
  Z.pos m * 2 ^ (e - emin prec emax).

Definition SF2Z (prec emax : Z) (f : spec_float) : Z :=
  match f with
  | S754_finite s m e => cond_Zopp s (mag prec emax m e)
  | _ => 0
  end.

Definition finite_or_zero (f : spec_float) : bool :=
  match f with
  | S754_finite _ _ _ | S754_zero _ => true
  | _ => false
  end.

Definition is_nan (f : spec_float) : bool :=
  match f with S754_nan => true | _ => false end.

(** The tail of [binary_round_aux]: the rounded mantissa is renormalised
    and the exponent tested for overflow. *)
Definition round_finish (prec emax : Z) (sx : bool) (m2 e' : Z) : spec_float :=
  let '(mrs'', e'') := shr_fexp prec emax m2 e' loc_Exact in
  match shr_m mrs'' with
  | Z0 => S754_zero sx
  | Z.pos m =>
      if e'' <=? emax - prec then S754_finite sx m e'' else S754_infinity sx
  | _ => S754_nan
  end.

Definition finite_or_overflow (prec emax : Z) (sx : bool) (m : positive) (e : Z)
  : spec_float :=
  if e <=? emax - prec then S754_finite sx m e else S754_infinity sx.

(** ** Kinds *)

(** Number of objects of kind [k], as [getTypeCounts] adds them up. *)
Fixpoint tally {F} (k : ObjectType) (l : list (GameObject.t F)) : Z :=
  match l with
  | [] => 0
  | o :: l' => (if decide (GameObject.type o = k) then 1 else 0) + tally k l'
  end.

Definition all_of {F} (k : ObjectType) (l : list (GameObject.t F)) : Prop :=
  Forall (fun o => GameObject.type o = k) l.

(** The first kind, in the order Rock, Paper, Scissors, that some object
    has; Rock when there is no object. *)
Definition first_present {F} (l : list (GameObject.t F)) : ObjectType :=
  if decide (0 < tally ROCK l) then ROCK
  else if decide (0 < tally PAPER l) then PAPER
  else if decide (0 < tally SCISSORS l) then SCISSORS
  else ROCK.

(** ** Positions *)

Section Positions.
Context {F : Type} `{FloatOps F}.
Import GameObject.
Local Open Scope float_scope.

(** The distance between the centres, computed in the arithmetic at
    hand. *)
Definition distance (a b : t F) : F :=
  fsqrt ((x a - x b) * (x a - x b) + (y a - y b) * (y a - y b)).

(** [radius <= x <= width - radius] and the same for [y]. *)
Definition within_bounds (width height : F) (o : t F) : bool :=
  (radius o <=? x o) && (x o <=? width - radius o) &&
  (radius o <=? y o) && (y o <=? height - radius o).

(** The tests of [handleBoundaries]. *)
Definition hits_x (width : F) (o : t F) : bool :=
  (x o - radius o <=? of_int 0) || (x o + radius o >=? width).
Definition hits_y (height : F) (o : t F) : bool :=
  (y o - radius o <=? of_int 0) || (y o + radius o >=? height).

(** [std::max(lo, std::min(hi, v))]. *)
Definition clamp (lo hi v : F) : F := std_max lo (std_min hi v).

(** No two objects of the list overlap. *)
Fixpoint no_overlap (l : list (t F)) : bool :=
  match l with
  | [] => true
  | a :: l' => forallb (fun b => negb (collidesWith a b)) l' && no_overlap l'
  end.

(** The offset [resolveCollision] applies along one axis. *)
Definition nudge (delta dist : F) : F := (delta / dist) * of_int 2.
End Positions.

(** The real number a binary32 value stands for; infinities and NaN
    stand for no number and are given 0. *)
Definition to_real (f : binary32) : R :=
  match f with
  | S754_finite s m e =>
      let v := if 0 <=? e then IZR (Z.pos m * 2 ^ e)
               else (IZR (Z.pos m) / IZR (2 ^ (- e)))%R in
      if s then (- v)%R else v
  | _ => 0%R
  end.

(** An object of binary32 numbers, read in exact arithmetic. *)
Definition exact (o : GameObject.t binary32) : GameObject.t R :=
  GameObject.Make (GameObject.type o)
    (to_real (GameObject.x o)) (to_real (GameObject.y o))
    (to_real (GameObject.vx o)) (to_real (GameObject.vy o))
    (to_real (GameObject.radius o)).

(** An arena of binary32 numbers is well formed when its dimensions and
    radii are positive finite numbers, a circle of each radius fits
    between the walls, and positions and velocities are finite. *)
Definition well_formed_object (width height : binary32)
    (o : GameObject.t binary32) : bool :=
  B32.positive (GameObject.radius o) &&
  B32.finite (GameObject.x o) && B32.finite (GameObject.y o) &&
  B32.finite (GameObject.vx o) && B32.finite (GameObject.vy o) &&
  fle (GameObject.radius o) (fsub width (GameObject.radius o)) &&
  fle (GameObject.radius o) (fsub height (GameObject.radius o)).

Definition well_formed (s : RPSSimulator.t binary32) : bool :=
  B32.positive (RPSSimulator.boxWidth s) &&
  B32.positive (RPSSimulator.boxHeight s) &&
  forallb (well_formed_object (RPSSimulator.boxWidth s)
             (RPSSimulator.boxHeight s))
          (RPSSimulator.objects s).

(** What an observer sees of a simulator: everything but its private
    generator. *)
Definition observe {F} (s : RPSSimulator.t F)
  : list (GameObject.t F) * F * F * Z :=
  (RPSSimulator.objects s, RPSSimulator.boxWidth s, RPSSimulator.boxHeight s,
   RPSSimulator.generation s).

(** Two generators agree on their next [n] draws. *)
Definition same_draws {F} (n : nat) (g1 g2 : Gen F) : Prop :=
  forall k : nat, (k < n)%nat ->
    next g1 (k + used g1)%nat = next g2 (k + used g2)%nat.


(** ** The standard population *)

(** The kind of the [i]-th object created by [initializeObjects]. *)
Definition nth_kind (i : nat) : ObjectType :=
  match (i mod 3)%nat with
  | O => ROCK
  | 1%nat => PAPER
  | _ => SCISSORS
  end.

(** The [i]-th object [initializeObjects] creates from the generators
    [rng0] and [vel0]: draws [2i] and [2i+1] of each.  Of the two
    position draws the earlier one is [x] when the [x] argument is
    evaluated first, and [y] otherwise; the velocity draws are two
    statements of the constructor, [vx] first. *)
Definition nth_object {F} `{FloatOps F} {order : EvaluationOrder}
    (rng0 vel0 : Gen F) (i : nat) : GameObject.t F :=
  let first := next rng0 (2 * i + used rng0) in
  let second := next rng0 (2 * i + 1 + used rng0) in
  GameObject.Make (nth_kind i)
    (if x_drawn_first i then first else second)
    (if x_drawn_first i then second else first)
    (next vel0 (2 * i + used vel0)) (next vel0 (2 * i + 1 + used vel0))
    (of_int 5).

(** A generator after [n] more draws. *)
Definition advanced {F} (n : nat) (g : Gen F) : Gen F :=
  MkGen (next g) (n + used g).

(** ** Objects across generations *)

(** In binary32: same radius, same speed along each axis. *)
Definition same_radius_and_speed (o o' : GameObject.t binary32) : Prop :=
  GameObject.radius o' = GameObject.radius o /\
  SFabs (GameObject.vx o') = SFabs (GameObject.vx o) /\
  SFabs (GameObject.vy o') = SFabs (GameObject.vy o).

(** ** The grid *)

(** The cell of the grid an object is drawn in, where the conversions are
    defined. *)
Definition cell_of {F} `{FloatOps F} `{FloatToInt F} (width height : F)
    (o : GameObject.t F) : option (Z * Z) :=
  match to_int (fdiv (fmul (GameObject.x o) (of_int 40)) width),
        to_int (fdiv (fmul (GameObject.y o) (of_int 20)) height) with
  | Some objX, Some objY => Some (objX, objY)
  | _, _ => None
  end.

(** A chunk that shows an object rather than an empty cell. *)
Definition is_symbol {F} (c : chunk F) : bool :=
  match c with
  | Chr _ => true
  | _ => false
  end.

(** The alphabet of the grid. *)
Definition grid_chunk {F} (c : chunk F) : Prop :=
  c = Str "." \/ exists type, c = Chr (typeToSymbol type).

(** The generations whose state the loop of [main] displays when it makes
    [k] updates: the update number [j + 1] is displayed when [j] is a
    multiple of ten. *)
Definition displayed (k : nat) : list nat :=
  filter (fun j => (j mod 10 = 0)%nat) (seq 0 k).

(** The same when the loop counter starts from [g]. *)
Definition displayed_from (g k : nat) : list nat :=
  filter (fun j => ((g + j) mod 10 = 0)%nat) (seq 0 k).

(** The kind of the first object of [objs], in order, whose cell is
    [(x, y)]. *)
Definition first_in_cell {F} `{FloatOps F} `{FloatToInt F} (width height : F)
    (x y : Z) (objs : list (GameObject.t F)) : option ObjectType :=
  GameObject.type <$>
    find (fun o => bool_decide (cell_of width height o = Some (x, y))) objs.

Definition cell_chunk {F} (k : option ObjectType) : chunk F :=
  match k with
  | Some type => Chr (typeToSymbol type)
  | None => Str "."
  end.

(** The picture of an arena: twenty lines of forty cells and a newline,
    the cell [(x, y)] showing the first object that falls into it. *)
Definition picture {F} `{FloatOps F} `{FloatToInt F} (s : RPSSimulator.t F)
  : list (list (chunk F)) :=
  map (fun y =>
         map (fun x => cell_chunk
                         (first_in_cell (RPSSimulator.boxWidth s)
                            (RPSSimulator.boxHeight s) x y
                            (RPSSimulator.objects s)))
             (seqZ 0 40)
         ++ [Str nl])
      (seqZ 0 20).

(** The cells of the grid, line by line. *)
Definition all_cells : list (Z * Z) :=
  seqZ 0 20 ≫= (fun y => (fun x => (x, y)) <$> seqZ 0 40).

(** Every object of the arena has a cell, inside the grid or not. *)
Definition drawable {F} `{FloatOps F} `{FloatToInt F} (s : RPSSimulator.t F)
  : Prop :=
  Forall (fun o => is_Some (cell_of (RPSSimulator.boxWidth s)
                              (RPSSimulator.boxHeight s) o))
         (RPSSimulator.objects s).


(** ** Concrete arenas, in binary32 *)

Module Scenario.
Import GameObject.

Definition f32 (z : Z) : binary32 := B32.of_Z z.

Definition agent (k : ObjectType) (x0 y0 vx0 vy0 : binary32)
  : GameObject.t binary32 :=
  Make k x0 y0 vx0 vy0 (f32 5).

(** The generator whose every draw returns [v]. *)
Definition constant_gen (v : binary32) : Gen binary32 := MkGen (fun _ => v) 0.

Definition arena (l : list (GameObject.t binary32))
  : RPSSimulator.t binary32 :=
  RPSSimulator.Make l (f32 100) (f32 100) (constant_gen (f32 0)) 0.

(** One agent flying at the right wall. *)
Definition at_wall : RPSSimulator.t binary32 :=
  arena [agent ROCK (f32 96) (f32 50) (f32 2) (f32 0)].

(** The same agent, and a second one that follows it at a distance. *)
Definition at_wall_followed : RPSSimulator.t binary32 :=
  arena [agent ROCK (f32 96) (f32 50) (f32 2) (f32 0);
         agent PAPER (f32 40) (f32 50) (f32 1) (f32 0)].

(** A Rock and a Scissors, head-on. *)
Definition head_on : RPSSimulator.t binary32 :=
  arena [agent ROCK (f32 40) (f32 50) (f32 1) (f32 0);
         agent SCISSORS (f32 60) (f32 50) (f32 (-1)) (f32 0)].

(** Two agents, ten apart, that meet next to the left wall. *)
Definition by_the_wall : RPSSimulator.t binary32 :=
  arena [agent ROCK (f32 6) (f32 50) (f32 (-2)) (f32 0);
         agent PAPER (f32 16) (f32 50) (f32 (-2)) (f32 0)].

(** A Rock and a Paper, far apart and at rest. *)
Definition undecided : RPSSimulator.t binary32 :=
  arena [agent ROCK (f32 20) (f32 20) (f32 0) (f32 0);
         agent PAPER (f32 70) (f32 70) (f32 0) (f32 0)].

(** Three Rocks. *)
Definition only_rocks : RPSSimulator.t binary32 :=
  arena [agent ROCK (f32 20) (f32 20) (f32 1) (f32 0);
         agent ROCK (f32 24) (f32 22) (f32 0) (f32 (-1));
         agent ROCK (f32 70) (f32 70) (f32 (-2)) (f32 2)].

(** [7 + 2^-21] and [6 + 2^-21]: one unit apart, each with its last
    mantissa bit set. *)
Definition seven_and_a_bit : binary32 := S754_finite false 14680065 (-21).
Definition six_and_a_bit : binary32 := S754_finite false 12582913 (-21).

Definition odd_a : GameObject.t binary32 :=
  agent ROCK seven_and_a_bit (f32 50) (f32 0) (f32 0).
Definition odd_b : GameObject.t binary32 :=
  agent PAPER six_and_a_bit (f32 50) (f32 0) (f32 0).

(** The order in which the builds of g++ evaluate the two arguments:
    [yDist(rng)] first. *)
#[export] Existing Instance right_to_left.

(** [8 - 2^-21] and [16 - 2^-20], the largest binary32 numbers below 8
    and below 16. *)
Definition almost_eight : binary32 := S754_finite false 16777215 (-21).
Definition almost_sixteen : binary32 := S754_finite false 16777215 (-20).

(** Two agents at rest whose centres are [6] apart along [x] and
    [8 - 2^-21] apart along [y]: [2^-17 - 2^-42] short of a squared
    distance of 100. *)
Definition close_a : GameObject.t binary32 :=
  agent ROCK (f32 20) almost_eight (f32 0) (f32 0).
Definition close_b : GameObject.t binary32 :=
  agent PAPER (f32 26) almost_sixteen (f32 0) (f32 0).

(** Start positions on a grid of pitch 20, as the draws of a seeded
    generator: with [yDist(rng)] evaluated first, [y] on even draws and
    [x] on odd ones. *)
Definition grid_gen : Gen binary32 :=
  MkGen (fun k => if Nat.even k
                  then f32 (10 + 20 * Z.of_nat ((k / 2) mod 5))
                  else f32 (10 + 20 * Z.of_nat ((k / 2) / 5)))
        0.

(** Generators that return the same first thirty values as [grid_gen],
    resp. as a constant generator of [1], and other values later. *)
Definition grid_gen_then_zero : Gen binary32 :=
  MkGen (fun k => if (k <? 30)%nat then next grid_gen k else f32 0) 0.
Definition ones_then_twos : Gen binary32 :=
  MkGen (fun k => if (k <? 30)%nat then f32 1 else f32 2) 0.
End Scenario.


(** ** Concrete runs, in binary32 *)

Module Runs.
Import Scenario.

(** The loop of [main], capped at twelve generations, on the head-on
    pair: final state and output. *)
Definition head_on_loop : RPSSimulator.t binary32 * list (chunk binary32) :=
  Eval vm_compute in
    match Driver.main_loop 12 0 head_on [] with
    | Some r => r
    | None => (head_on, [])
    end.

(** The display of the head-on pair. *)
Definition head_on_display : list (chunk binary32) :=
  Eval vm_compute in
    match Display.displayState head_on with
    | Some out => out
    | None => []
    end.

(** [main], capped at one generation, with start positions on the grid
    and all velocities [(1, 1)]. *)
Definition grid_run : list (chunk binary32) :=
  Eval vm_compute in
    match Driver.run 1 grid_gen (constant_gen (f32 1)) with
    | Some out => out
    | None => []
    end.
End Runs.


(** ** The integer positions of the arena

    Boolean checks, by evaluation in binary32, of the steps of
    [collidesWith] on the integers from 0 to 100. *)

Module Lattice.
Import Scenario.

Definition sf_eqb (a b : spec_float) : bool :=
  match a, b with
  | S754_zero s1, S754_zero s2 => Bool.eqb s1 s2
  | S754_infinity s1, S754_infinity s2 => Bool.eqb s1 s2
  | S754_nan, S754_nan => true
  | S754_finite s1 m1 e1, S754_finite s2 m2 e2 =>
      Bool.eqb s1 s2 && Pos.eqb m1 m2 && Z.eqb e1 e2
  | _, _ => false
  end.

(** The difference of two coordinates is exact. *)
Definition differences_exact : bool :=
  forallb (fun a =>
    forallb (fun b => sf_eqb (fsub (f32 a) (f32 b)) (f32 (a - b)))
            (seqZ 0 101))
          (seqZ 0 101).

(** The square of a difference is exact. *)
Definition squares_exact : bool :=
  forallb (fun d => sf_eqb (fmul (f32 d) (f32 d)) (f32 (d * d)))
          (seqZ (-100) 201).

(** The rest of [collidesWith], from the two squares on, for radius 5 on
    both sides, against the comparison of integers. *)
Definition test_exact : bool :=
  forallb (fun a =>
    forallb (fun b =>
      Bool.eqb (flt (fsqrt (fadd (f32 (a * a)) (f32 (b * b))))
                    (fadd (f32 5) (f32 5)))
               (a * a + b * b <? (5 + 5) * (5 + 5)))
            (seqZ 0 101))
          (seqZ 0 101).
End Lattice.


(** * Facts about [SpecFloat]

    Addition and subtraction of finite floats round an exact integer
    multiple of [2^emin]; what the program needs is that this rounding
    never crosses a representable number. *)

Section SpecFloatFacts.
Variables prec emax : Z.
Hypothesis prec_pos : 0 < prec.

Local Abbreviation emin := (emin prec emax).
Local Abbreviation fexp := (fexp prec emax).
Local Abbreviation mag := (mag prec emax).
Local Abbreviation SF2Z := (SF2Z prec emax).
Local Abbreviation round_finish := (round_finish prec emax).
Local Abbreviation finite_or_overflow := (finite_or_overflow prec emax).

Lemma digits2_pos_bounds (m : positive) :
  2 ^ (Z.pos (digits2_pos m) - 1) <= Z.pos m < 2 ^ Z.pos (digits2_pos m).
Proof.
  induction m as [m IH|m IH|]; cbn [digits2_pos].
  - rewrite Pos2Z.inj_succ, Z.pow_succ_r by lia.
    replace (Z.succ (Z.pos (digits2_pos m)) - 1)
      with (Z.succ (Z.pos (digits2_pos m) - 1)) by lia.
    rewrite Z.pow_succ_r by lia. lia.
  - rewrite Pos2Z.inj_succ, Z.pow_succ_r by lia.
    replace (Z.succ (Z.pos (digits2_pos m)) - 1)
      with (Z.succ (Z.pos (digits2_pos m) - 1)) by lia.
    rewrite Z.pow_succ_r by lia. lia.
  - simpl. lia.
Qed.

Lemma digits2_pos_unique (m : positive) (d : Z) :
  2 ^ (d - 1) <= Z.pos m < 2 ^ d -> Z.pos (digits2_pos m) = d.
Proof.
  intros [Hlo Hhi]. pose proof (digits2_pos_bounds m) as [Hlo' Hhi'].
  assert (0 < d).
  { destruct (Z.le_gt_cases d 0) as [Hd|]; [|done].
    destruct (Z.eq_dec d 0) as [->|]; [simpl in *; lia|].
    rewrite (Z.pow_neg_r 2 d) in Hhi by lia. lia. }
  destruct (Z.lt_trichotomy (Z.pos (digits2_pos m)) d) as [Hlt|[|Hgt]];
    [exfalso|done|exfalso].
  - assert (2 ^ Z.pos (digits2_pos m) <= 2 ^ (d - 1))
      by (apply Z.pow_le_mono_r; lia). lia.
  - assert (2 ^ d <= 2 ^ (Z.pos (digits2_pos m) - 1))
      by (apply Z.pow_le_mono_r; lia). lia.
Qed.

Lemma canonical_inv (m : positive) (e : Z) :
  canonical_mantissa prec emax m e = true ->
  emin <= e /\ Z.pos (digits2_pos m) <= prec /\
  (emin < e -> Z.pos (digits2_pos m) = prec).
Proof.
  unfold canonical_mantissa, SpecFloat.fexp. intros Hc%Z.eqb_eq. lia.
Qed.

Lemma canonical_mag_bounds (m : positive) (e : Z) :
  canonical_mantissa prec emax m e = true ->
  mag m e < 2 ^ (prec + e - emin) /\
  (emin < e -> 2 ^ (prec - 1 + e - emin) <= mag m e).
Proof.
  intros (He & Hd & Hn)%canonical_inv.
  pose proof (digits2_pos_bounds m) as [Hlo Hhi]. unfold mag.
  assert (0 < 2 ^ (e - emin)) by (apply Z.pow_pos_nonneg; lia).
  split.
  - replace (prec + e - emin) with (prec + (e - emin)) by lia.
    rewrite Z.pow_add_r by lia.
    apply Z.mul_lt_mono_pos_r; [done|].
    eapply Z.lt_le_trans; [exact Hhi|]. apply Z.pow_le_mono_r; lia.
  - intros He'. rewrite Hn in Hlo by done.
    replace (prec - 1 + e - emin) with (prec - 1 + (e - emin)) by lia.
    rewrite Z.pow_add_r by lia.
    apply Z.mul_le_mono_nonneg_r; lia.
Qed.

Lemma mag_pos (m : positive) (e : Z) : emin <= e -> 0 < mag m e.
Proof.
  intros. unfold mag.
  assert (0 < 2 ^ (e - emin)) by (apply Z.pow_pos_nonneg; lia). lia.
Qed.

(** Comparison of canonical pairs is comparison of magnitudes. *)
Lemma compare_canonical (m1 m2 : positive) (e1 e2 : Z) :
  canonical_mantissa prec emax m1 e1 = true ->
  canonical_mantissa prec emax m2 e2 = true ->
  match e1 ?= e2 with
  | Lt => Lt
  | Gt => Gt
  | Eq => Pos.compare_cont Eq m1 m2
  end = (mag m1 e1 ?= mag m2 e2).
Proof.
  intros H1 H2.
  pose proof (canonical_mag_bounds _ _ H1) as [Hu1 Hl1].
  pose proof (canonical_mag_bounds _ _ H2) as [Hu2 Hl2].
  pose proof (canonical_inv _ _ H1) as (He1 & _).
  pose proof (canonical_inv _ _ H2) as (He2 & _).
  destruct (Z.compare_spec e1 e2) as [->|Hlt|Hgt]; symmetry.
  - unfold mag.
    assert (0 < 2 ^ (e2 - emin)) by (apply Z.pow_pos_nonneg; lia).
    change (Pos.compare_cont Eq m1 m2) with (Z.pos m1 ?= Z.pos m2).
    destruct (Z.compare_spec (Z.pos m1) (Z.pos m2)) as [->|?|?].
    + apply Z.compare_refl.
    + apply Z.compare_lt_iff. nia.
    + apply Z.compare_gt_iff. nia.
  - apply Z.compare_lt_iff.
    assert (2 ^ (prec + e1 - emin) <= 2 ^ (prec - 1 + e2 - emin))
      by (apply Z.pow_le_mono_r; lia).
    specialize (Hl2 ltac:(lia)). lia.
  - apply Z.compare_gt_iff.
    assert (2 ^ (prec + e2 - emin) <= 2 ^ (prec - 1 + e1 - emin))
      by (apply Z.pow_le_mono_r; lia).
    specialize (Hl1 ltac:(lia)). lia.
Qed.

Lemma valid_binary_canonical (s : bool) (m : positive) (e : Z) :
  valid_binary prec emax (S754_finite s m e) = true ->
  canonical_mantissa prec emax m e = true.
Proof. simpl. unfold bounded. by intros [? _]%andb_true_iff. Qed.

Lemma SF2Z_sign (s : bool) (m : positive) (e : Z) :
  canonical_mantissa prec emax m e = true ->
  if s then SF2Z (S754_finite s m e) < 0 else 0 < SF2Z (S754_finite s m e).
Proof.
  intros (He & _)%canonical_inv. pose proof (mag_pos m e He).
  destruct s; simpl; lia.
Qed.

(** On valid finite floats and zeros, [SFcompare] compares values. *)
Lemma SFcompare_SF2Z (a b : spec_float) :
  finite_or_zero a = true -> finite_or_zero b = true ->
  valid_binary prec emax a = true -> valid_binary prec emax b = true ->
  SFcompare a b = Some (SF2Z a ?= SF2Z b).
Proof.
  destruct a as [sa| | |sa ma ea], b as [sb| | |sb mb eb];
    try discriminate; intros _ _ Ha Hb.
  - done.
  - apply valid_binary_canonical in Hb.
    pose proof (SF2Z_sign sb _ _ Hb) as Hs.
    cbn [SFcompare]. f_equal. symmetry.
    change (SF2Z (S754_zero sa)) with 0.
    destruct sb; [apply Z.compare_gt_iff|apply Z.compare_lt_iff]; lia.
  - apply valid_binary_canonical in Ha.
    pose proof (SF2Z_sign sa _ _ Ha) as Hs.
    cbn [SFcompare]. f_equal. symmetry.
    change (SF2Z (S754_zero sb)) with 0.
    destruct sa; [apply Z.compare_lt_iff|apply Z.compare_gt_iff]; lia.
  - apply valid_binary_canonical in Ha, Hb.
    pose proof (SF2Z_sign sa _ _ Ha) as Hsa.
    pose proof (SF2Z_sign sb _ _ Hb) as Hsb.
    cbn [SFcompare]. f_equal.
    destruct sa, sb.
    + pose proof (compare_canonical _ _ _ _ Ha Hb) as Hc.
      cbn [SF2Z cond_Zopp].
      rewrite Z.compare_opp, (Z.compare_antisym (mag ma ea)), <- Hc.
      by destruct (ea ?= eb).
    + symmetry. apply Z.compare_lt_iff. lia.
    + symmetry. apply Z.compare_gt_iff. lia.
    + by rewrite (compare_canonical _ _ _ _ Ha Hb).
Qed.

(** *** Alignment to a smaller exponent *)

Lemma iter_xO (m d : positive) :
  Z.pos (Pos.iter xO m d) = Z.pos m * 2 ^ Z.pos d.
Proof.
  induction d as [|d IH] using Pos.peano_ind.
  - simpl. lia.
  - rewrite Pos.iter_succ, Pos2Z.inj_succ, Z.pow_succ_r by lia.
    rewrite Pos2Z.inj_xO, IH. lia.
Qed.

Lemma shl_align_spec (mx : positive) (ex ex' : Z) :
  emin <= ex' ->
  mag (shl_align mx ex ex').1 (shl_align mx ex ex').2 = mag mx ex /\
  (shl_align mx ex ex').2 = Z.min ex ex' /\
  Z.pos (digits2_pos (shl_align mx ex ex').1) + (shl_align mx ex ex').2
  = Z.pos (digits2_pos mx) + ex.
Proof.
  intros He. unfold shl_align.
  destruct (ex' - ex) as [|d|d] eqn:Hd; cbn [fst snd];
    [split; [done|lia] | split; [done|lia] |].
  assert (Hex : ex = ex' + Z.pos d) by lia.
  split; [|split; [lia|]].
  - unfold mag. rewrite iter_xO, Hex.
    replace (ex' + Z.pos d - emin) with (Z.pos d + (ex' - emin)) by lia.
    rewrite Z.pow_add_r by lia. lia.
  - pose proof (digits2_pos_bounds mx) as [Hlo Hhi].
    assert (0 < 2 ^ Z.pos d) by (apply Z.pow_pos_nonneg; lia).
    rewrite (digits2_pos_unique (Pos.iter xO mx d)
               (Z.pos (digits2_pos mx) + Z.pos d)); [lia|].
    rewrite iter_xO.
    replace (Z.pos (digits2_pos mx) + Z.pos d - 1)
      with (Z.pos (digits2_pos mx) - 1 + Z.pos d) by lia.
    rewrite !Z.pow_add_r by lia. nia.
Qed.

(** *** Right shifts *)

Lemma shr_1_m (mrs : shr_record) :
  0 <= shr_m mrs -> shr_m (shr_1 mrs) = shr_m mrs / 2.
Proof.
  destruct mrs as [m r s]; cbn [shr_m]. intros Hm.
  destruct m as [|[p|p|]|p]; cbn [shr_m shr_1]; try lia; try done.
  - rewrite Pos2Z.inj_xI. apply Z.div_unique with 1; lia.
  - rewrite Pos2Z.inj_xO. apply Z.div_unique with 0; lia.
Qed.

Lemma iter_pos_shr_1 (p : positive) (mrs : shr_record) :
  0 <= shr_m mrs ->
  shr_m (SpecFloat.iter_pos shr_1 p mrs) = shr_m mrs / 2 ^ Z.pos p.
Proof.
  revert mrs. induction p as [p IH|p IH|]; intros mrs Hm; cbn [SpecFloat.iter_pos].
  - assert (0 <= shr_m (shr_1 mrs))
      by (rewrite shr_1_m by done; apply Z.div_pos; lia).
    assert (0 < 2 ^ Z.pos p) by (apply Z.pow_pos_nonneg; lia).
    assert (0 <= shr_m (SpecFloat.iter_pos shr_1 p (shr_1 mrs)))
      by (rewrite IH by done; apply Z.div_pos; lia).
    rewrite !IH, shr_1_m, !Z.div_div by lia.
    f_equal. rewrite <- (Z.pow_1_r 2) at 1.
    rewrite <- !Z.pow_add_r by lia. f_equal. lia.
  - assert (0 < 2 ^ Z.pos p) by (apply Z.pow_pos_nonneg; lia).
    assert (0 <= shr_m (SpecFloat.iter_pos shr_1 p mrs))
      by (rewrite IH by done; apply Z.div_pos; lia).
    rewrite !IH, !Z.div_div by lia.
    f_equal. rewrite <- Z.pow_add_r by lia. f_equal. lia.
  - by rewrite shr_1_m.
Qed.

Lemma round_nearest_even_bounds (q : Z) (l : location) :
  q <= round_nearest_even q l <= q + 1.
Proof.
  destruct l as [|[]]; simpl; try lia. destruct (Z.even q); lia.
Qed.

(** *** Rounding an exact value *)

Lemma binary_round_aux_unfold (sx : bool) (mx ex : Z) (lx : location) :
  binary_round_aux prec emax sx mx ex lx
  = round_finish sx
      (round_nearest_even (shr_m (shr_fexp prec emax mx ex lx).1)
         (loc_of_shr_record (shr_fexp prec emax mx ex lx).1))
      (shr_fexp prec emax mx ex lx).2.
Proof.
  unfold binary_round_aux, round_finish.
  by destruct (shr_fexp prec emax mx ex lx).
Qed.

Lemma round_finish_canonical (sx : bool) (m : positive) (e : Z) :
  canonical_mantissa prec emax m e = true ->
  round_finish sx (Z.pos m) e = finite_or_overflow sx m e.
Proof.
  unfold canonical_mantissa. intros Hc%Z.eqb_eq.
  unfold round_finish, shr_fexp. cbn [Zdigits2].
  by rewrite Hc, Z.sub_diag.
Qed.

Lemma canonical_full (m : positive) (e : Z) :
  emin <= e -> Z.pos (digits2_pos m) = prec ->
  canonical_mantissa prec emax m e = true.
Proof.
  intros He Hd. unfold canonical_mantissa, SpecFloat.fexp.
  apply Z.eqb_eq. lia.
Qed.

(** A mantissa that rounding carried up to [2^prec] is halved. *)
Lemma round_finish_carry (sx : bool) (e : Z) :
  emin <= e ->
  exists m,
    Z.pos m = 2 ^ (prec - 1) /\
    round_finish sx (2 ^ prec) e = finite_or_overflow sx m (e + 1).
Proof.
  intros He.
  assert (Hp : 0 < 2 ^ prec) by (apply Z.pow_pos_nonneg; lia).
  assert (Hp1 : 0 < 2 ^ (prec - 1)) by (apply Z.pow_pos_nonneg; lia).
  assert (H2 : 2 ^ prec = 2 * 2 ^ (prec - 1)).
  { rewrite <- Z.pow_succ_r by lia. f_equal. lia. }
  destruct (2 ^ prec) as [|pm|] eqn:Epm; try lia.
  exists (Z.to_pos (2 ^ (prec - 1))). split; [lia|].
  assert (Hd : Z.pos (digits2_pos pm) = prec + 1).
  { apply digits2_pos_unique. rewrite <- Epm.
    replace (prec + 1 - 1) with prec by lia.
    split; [done|]. rewrite Z.pow_add_r by lia. lia. }
  unfold round_finish, shr_fexp. cbn [Zdigits2]. rewrite Hd.
  replace (SpecFloat.fexp prec emax (prec + 1 + e) - e) with 1
    by (unfold SpecFloat.fexp; lia).
  cbn [shr shr_record_of_loc SpecFloat.iter_pos fst snd].
  rewrite (shr_1_m {| shr_m := Z.pos pm; shr_r := false; shr_s := false |})
    by (simpl; lia).
  cbn [shr_m].
  replace (Z.pos pm / 2) with (2 ^ (prec - 1))
    by (apply Z.div_unique with 0; lia).
  destruct (2 ^ (prec - 1)) as [|q|] eqn:Eq; try lia.
  by rewrite Pos2Z.id.
Qed.

(** No canonical pair lies strictly between a value and its truncation
    to [prec] bits. *)
Lemma truncation_lower (mz : positive) (ez : Z) (p : positive)
    (mg : positive) (eg : Z) :
  emin <= ez ->
  2 ^ (prec - 1) <= Z.pos mz / 2 ^ Z.pos p ->
  canonical_mantissa prec emax mg eg = true ->
  mag mg eg <= mag mz ez ->
  mag mg eg <= (Z.pos mz / 2 ^ Z.pos p) * 2 ^ (ez + Z.pos p - emin).
Proof.
  intros He Hq Hg Hle.
  set (q := Z.pos mz / 2 ^ Z.pos p) in *.
  set (e' := ez + Z.pos p).
  pose proof (canonical_inv _ _ Hg) as (Heg & _).
  assert (H2p : 0 < 2 ^ Z.pos p) by (apply Z.pow_pos_nonneg; lia).
  assert (H2e : 0 < 2 ^ (e' - emin)) by (apply Z.pow_pos_nonneg; lia).
  assert (H2z : 0 < 2 ^ (ez - emin)) by (apply Z.pow_pos_nonneg; lia).
  assert (Hsplit : 2 ^ (e' - emin) = 2 ^ Z.pos p * 2 ^ (ez - emin)).
  { rewrite <- Z.pow_add_r by lia. f_equal. lia. }
  destruct (Z.le_gt_cases e' eg) as [Hge|Hlt].
  - assert (H2g : 0 < 2 ^ (eg - e')) by (apply Z.pow_pos_nonneg; lia).
    assert (Hg' : mag mg eg = Z.pos mg * 2 ^ (eg - e') * 2 ^ (e' - emin)).
    { unfold mag. rewrite <- Z.mul_assoc, <- Z.pow_add_r by lia.
      do 2 f_equal. lia. }
    rewrite Hg'. apply Z.mul_le_mono_nonneg_r; [lia|].
    apply Z.div_le_lower_bound; [done|].
    apply Z.mul_le_mono_pos_r with (2 ^ (ez - emin)); [done|].
    rewrite Hg', Hsplit in Hle. unfold mag in Hle. lia.
  - pose proof (canonical_mag_bounds _ _ Hg) as [Hu _].
    assert (2 ^ (prec + eg - emin) <= 2 ^ (prec - 1 + (e' - emin)))
      by (apply Z.pow_le_mono_r; lia).
    rewrite Z.pow_add_r in H by lia.
    assert (2 ^ (prec - 1) * 2 ^ (e' - emin) <= q * 2 ^ (e' - emin))
      by (apply Z.mul_le_mono_nonneg_r; lia).
    lia.
Qed.

Lemma binary_round_aux_exact (sx : bool) (mz : positive) (ez : Z) :
  emin <= ez ->
  ez <= fexp (Z.pos (digits2_pos mz) + ez) ->
  exists m e,
    binary_round_aux prec emax sx (Z.pos mz) ez loc_Exact
    = finite_or_overflow sx m e /\
    canonical_mantissa prec emax m e = true /\
    forall mg eg,
      canonical_mantissa prec emax mg eg = true ->
      mag mg eg <= mag mz ez -> mag mg eg <= mag m e.
Proof.
  intros He Hf. rewrite binary_round_aux_unfold.
  set (d := Z.pos (digits2_pos mz)) in *.
  destruct (Z.eq_dec (fexp (d + ez)) ez) as [Hcan|Hne].
  { (* already canonical: nothing is shifted out *)
    assert (Hc : canonical_mantissa prec emax mz ez = true)
      by (by apply Z.eqb_eq).
    unfold shr_fexp at 1 2 3. cbn [Zdigits2]. fold d.
    rewrite Hcan, Z.sub_diag.
    cbn [shr shr_record_of_loc fst snd shr_m loc_of_shr_record
         round_nearest_even].
    rewrite round_finish_canonical by done.
    exists mz, ez. auto. }
  assert (Hfe : fexp (d + ez) = d + ez - prec)
    by (unfold SpecFloat.fexp in *; lia).
  assert (Hn : exists p, d - prec = Z.pos p).
  { exists (Z.to_pos (d - prec)). rewrite Z2Pos.id; lia. }
  destruct Hn as [p Hp].
  unfold shr_fexp at 1 2 3. cbn [Zdigits2]. fold d.
  replace (fexp (d + ez) - ez) with (Z.pos p) by lia.
  cbn [shr shr_record_of_loc fst snd].
  set (mrs := SpecFloat.iter_pos shr_1 p _).
  assert (Hq : shr_m mrs = Z.pos mz / 2 ^ Z.pos p)
    by (unfold mrs; rewrite iter_pos_shr_1; simpl; [done|lia]).
  set (q := Z.pos mz / 2 ^ Z.pos p) in *.
  assert (H2p : 0 < 2 ^ Z.pos p) by (apply Z.pow_pos_nonneg; lia).
  pose proof (digits2_pos_bounds mz) as [Hlo Hhi]. fold d in Hlo, Hhi.
  assert (Hqlo : 2 ^ (prec - 1) <= q).
  { apply Z.div_le_lower_bound; [done|].
    rewrite Z.mul_comm, <- Z.pow_add_r by lia.
    replace (prec - 1 + Z.pos p) with (d - 1) by lia. done. }
  assert (Hqhi : q < 2 ^ prec).
  { apply Z.div_lt_upper_bound; [done|].
    rewrite <- Z.pow_add_r by lia.
    replace (Z.pos p + prec) with d by lia. done. }
  pose proof (round_nearest_even_bounds q (loc_of_shr_record mrs)) as Hr.
  rewrite Hq.
  set (m2 := round_nearest_even q (loc_of_shr_record mrs)) in *.
  assert (Hp1 : 0 < 2 ^ (prec - 1)) by (apply Z.pow_pos_nonneg; lia).
  assert (Hlow : forall mg eg,
    canonical_mantissa prec emax mg eg = true ->
    mag mg eg <= mag mz ez -> mag mg eg <= q * 2 ^ (ez + Z.pos p - emin))
    by (intros; by apply truncation_lower).
  assert (H2e : 0 < 2 ^ (ez + Z.pos p - emin))
    by (apply Z.pow_pos_nonneg; lia).
  destruct (Z.eq_dec m2 (2 ^ prec)) as [Hcarry|Hnc].
  - rewrite Hcarry.
    destruct (round_finish_carry sx (ez + Z.pos p)) as (m & Hm & ->); [lia|].
    exists m, (ez + Z.pos p + 1). split; [done|]. split.
    + apply canonical_full; [lia|]. apply digits2_pos_unique.
      rewrite Hm. split; [done|]. apply Z.pow_lt_mono_r; lia.
    + intros mg eg Hg Hle. specialize (Hlow _ _ Hg Hle).
      unfold mag at 2. rewrite Hm.
      replace (ez + Z.pos p + 1 - emin)
        with (1 + (ez + Z.pos p - emin)) by lia.
      rewrite Z.pow_add_r, Z.mul_assoc by lia.
      replace (2 ^ (prec - 1) * 2 ^ 1) with (2 ^ prec)
        by (rewrite <- Z.pow_add_r by lia; f_equal; lia).
      assert (q * 2 ^ (ez + Z.pos p - emin)
              <= 2 ^ prec * 2 ^ (ez + Z.pos p - emin))
        by (apply Z.mul_le_mono_nonneg_r; lia).
      lia.
  - destruct m2 as [|pm|] eqn:Em2; try lia.
    assert (Hc : canonical_mantissa prec emax pm (ez + Z.pos p) = true).
    { apply canonical_full; [lia|]. apply digits2_pos_unique. lia. }
    rewrite round_finish_canonical by done.
    exists pm, (ez + Z.pos p). split; [done|]. split; [done|].
    intros mg eg Hg Hle. specialize (Hlow _ _ Hg Hle).
    unfold mag at 2.
    assert (q * 2 ^ (ez + Z.pos p - emin)
            <= Z.pos pm * 2 ^ (ez + Z.pos p - emin))
      by (apply Z.mul_le_mono_nonneg_r; lia).
    lia.
Qed.

Lemma binary_round_exact (sx : bool) (mx : positive) (ex : Z) :
  emin <= ex ->
  exists m e,
    binary_round prec emax sx mx ex = finite_or_overflow sx m e /\
    canonical_mantissa prec emax m e = true /\
    forall mg eg,
      canonical_mantissa prec emax mg eg = true ->
      mag mg eg <= mag mx ex -> mag mg eg <= mag m e.
Proof.
  intros He. unfold binary_round.
  set (t := fexp (Z.pos (digits2_pos mx) + ex)).
  assert (Ht : emin <= t) by (unfold t, SpecFloat.fexp; lia).
  pose proof (shl_align_spec mx ex t Ht) as (Hmag & He' & Hd).
  destruct (shl_align mx ex t) as [mz ez]; cbn [fst snd] in *.
  rewrite <- Hmag.
  apply binary_round_aux_exact; [lia|]. rewrite Hd. fold t. lia.
Qed.

Lemma binary_normalize_exact (n e : Z) (szero : bool) :
  emin <= e -> n <> 0 ->
  exists m e',
    binary_normalize prec emax n e szero
    = finite_or_overflow (n <? 0) m e' /\
    canonical_mantissa prec emax m e' = true /\
    (0 < n ->
     forall mg eg,
       canonical_mantissa prec emax mg eg = true ->
       mag mg eg <= n * 2 ^ (e - emin) -> mag mg eg <= mag m e').
Proof.
  intros He Hn. destruct n as [|pn|pn]; [done| |]; cbn [binary_normalize].
  - destruct (binary_round_exact false pn e He) as (m & e' & Hr & Hc & Hl).
    exists m, e'. auto.
  - destruct (binary_round_exact true pn e He) as (m & e' & Hr & Hc & Hl).
    exists m, e'. split; [done|]. split; [done|]. lia.
Qed.

Lemma finite_or_overflow_valid (sx : bool) (m : positive) (e : Z) :
  canonical_mantissa prec emax m e = true ->
  valid_binary prec emax (finite_or_overflow sx m e) = true.
Proof.
  intros Hc. unfold finite_or_overflow.
  destruct (e <=? emax - prec) eqn:E; [|done].
  simpl. unfold bounded. by rewrite Hc, E.
Qed.

Lemma finite_or_overflow_not_nan (sx : bool) (m : positive) (e : Z) :
  is_nan (finite_or_overflow sx m e) = false.
Proof. unfold finite_or_overflow. by destruct (_ <=? _). Qed.

(** The mantissa of [x] once aligned with [y], as [SFadd] and [SFsub]
    use it. *)
Lemma aligned_mantissa (mx : positive) (ex ey : Z) :
  emin <= ex -> emin <= ey ->
  Z.pos (shl_align mx ex (Z.min ex ey)).1 * 2 ^ (Z.min ex ey - emin)
  = mag mx ex.
Proof.
  intros Hx Hy.
  pose proof (shl_align_spec mx ex (Z.min ex ey) ltac:(lia)) as (Hm & He & _).
  rewrite <- Hm. unfold mag. do 2 f_equal. lia.
Qed.

Lemma aligned_mantissa' (my : positive) (ex ey : Z) :
  emin <= ex -> emin <= ey ->
  Z.pos (shl_align my ey (Z.min ex ey)).1 * 2 ^ (Z.min ex ey - emin)
  = mag my ey.
Proof.
  intros Hx Hy. rewrite Z.min_comm. by apply aligned_mantissa.
Qed.

Lemma cond_Zopp_mul (s : bool) (a b : Z) :
  cond_Zopp s a * b = cond_Zopp s (a * b).
Proof. destruct s; simpl; lia. Qed.

(** The exact sum and difference that [SFadd] and [SFsub] round. *)
Lemma SFadd_finite (sx sy : bool) (mx my : positive) (ex ey : Z) :
  canonical_mantissa prec emax mx ex = true ->
  canonical_mantissa prec emax my ey = true ->
  exists n,
    SFadd prec emax (S754_finite sx mx ex) (S754_finite sy my ey)
    = binary_normalize prec emax n (Z.min ex ey) false /\
    n * 2 ^ (Z.min ex ey - emin)
    = SF2Z (S754_finite sx mx ex) + SF2Z (S754_finite sy my ey).
Proof.
  intros (Hx & _)%canonical_inv (Hy & _)%canonical_inv.
  eexists. split; [reflexivity|].
  rewrite Z.mul_add_distr_r, !cond_Zopp_mul.
  by rewrite aligned_mantissa, aligned_mantissa'.
Qed.

Lemma SFsub_finite (sx sy : bool) (mx my : positive) (ex ey : Z) :
  canonical_mantissa prec emax mx ex = true ->
  canonical_mantissa prec emax my ey = true ->
  exists n,
    SFsub prec emax (S754_finite sx mx ex) (S754_finite sy my ey)
    = binary_normalize prec emax n (Z.min ex ey) false /\
    n * 2 ^ (Z.min ex ey - emin)
    = SF2Z (S754_finite sx mx ex) - SF2Z (S754_finite sy my ey).
Proof.
  intros (Hx & _)%canonical_inv (Hy & _)%canonical_inv.
  eexists. split; [reflexivity|].
  rewrite Z.mul_sub_distr_r, !cond_Zopp_mul.
  by rewrite aligned_mantissa, aligned_mantissa'.
Qed.

(** *** What the program needs of [SFadd] and [SFsub] *)

Lemma binary_normalize_valid (n e : Z) :
  emin <= e ->
  valid_binary prec emax (binary_normalize prec emax n e false) = true /\
  is_nan (binary_normalize prec emax n e false) = false.
Proof.
  intros He. destruct (Z.eq_dec n 0) as [->|Hn]; [done|].
  destruct (binary_normalize_exact n e false He Hn) as (m & e' & -> & Hc & _).
  split; [by apply finite_or_overflow_valid|].
  apply finite_or_overflow_not_nan.
Qed.

Lemma SFadd_valid (a b : spec_float) :
  finite_or_zero a = true -> finite_or_zero b = true ->
  valid_binary prec emax a = true -> valid_binary prec emax b = true ->
  valid_binary prec emax (SFadd prec emax a b) = true /\
  is_nan (SFadd prec emax a b) = false.
Proof.
  destruct a as [sa| | |sa ma ea], b as [sb| | |sb mb eb];
    try discriminate; intros _ _ Ha Hb.
  - by destruct sa, sb.
  - done.
  - done.
  - apply valid_binary_canonical in Ha, Hb.
    destruct (SFadd_finite sa sb ma mb ea eb Ha Hb) as (n & -> & _).
    apply binary_normalize_valid.
    apply canonical_inv in Ha, Hb. lia.
Qed.

Lemma SFleb_finite_or_overflow (mg m : positive) (eg e : Z) :
  valid_binary prec emax (S754_finite false mg eg) = true ->
  canonical_mantissa prec emax m e = true ->
  mag mg eg <= mag m e ->
  SFleb (S754_finite false mg eg) (finite_or_overflow false m e) = true.
Proof.
  intros Hg Hc Hle. unfold finite_or_overflow.
  destruct (e <=? emax - prec) eqn:E; [|done].
  unfold SFleb. rewrite SFcompare_SF2Z; try done.
  - cbn [SF2Z cond_Zopp].
    destruct (Z.compare_spec (mag mg eg) (mag m e)); [done|done|lia].
  - simpl. unfold bounded. by rewrite Hc, E.
Qed.

Lemma binary_normalize_lower (n e : Z) (mg : positive) (eg : Z) :
  emin <= e ->
  valid_binary prec emax (S754_finite false mg eg) = true ->
  mag mg eg <= n * 2 ^ (e - emin) ->
  SFleb (S754_finite false mg eg) (binary_normalize prec emax n e false)
  = true.
Proof.
  intros He Hg Hle.
  pose proof (valid_binary_canonical _ _ _ Hg) as Hgc.
  pose proof (canonical_inv _ _ Hgc) as (Heg & _).
  pose proof (mag_pos mg eg Heg).
  assert (0 < 2 ^ (e - emin)) by (apply Z.pow_pos_nonneg; lia).
  assert (Hn : 0 < n) by nia.
  destruct (binary_normalize_exact n e false He ltac:(lia))
    as (m & e' & -> & Hc & Hl).
  replace (n <? 0) with false by (symmetry; apply Z.ltb_ge; lia).
  apply SFleb_finite_or_overflow; auto.
Qed.

(** If no rounding error could push the sum below [g], the rounded sum
    is not below [g]. *)
Lemma SFadd_lower (sx sy : bool) (mx my mg : positive) (ex ey eg : Z) :
  valid_binary prec emax (S754_finite sx mx ex) = true ->
  valid_binary prec emax (S754_finite sy my ey) = true ->
  valid_binary prec emax (S754_finite false mg eg) = true ->
  mag mg eg <= SF2Z (S754_finite sx mx ex) + SF2Z (S754_finite sy my ey) ->
  SFleb (S754_finite false mg eg)
    (SFadd prec emax (S754_finite sx mx ex) (S754_finite sy my ey)) = true.
Proof.
  intros Hx%valid_binary_canonical Hy%valid_binary_canonical Hg Hle.
  destruct (SFadd_finite sx sy mx my ex ey Hx Hy) as (n & -> & Hn).
  apply binary_normalize_lower; [|done|by rewrite Hn].
  apply canonical_inv in Hx, Hy. lia.
Qed.

Lemma SFsub_lower (sx sy : bool) (mx my mg : positive) (ex ey eg : Z) :
  valid_binary prec emax (S754_finite sx mx ex) = true ->
  valid_binary prec emax (S754_finite sy my ey) = true ->
  valid_binary prec emax (S754_finite false mg eg) = true ->
  mag mg eg <= SF2Z (S754_finite sx mx ex) - SF2Z (S754_finite sy my ey) ->
  SFleb (S754_finite false mg eg)
    (SFsub prec emax (S754_finite sx mx ex) (S754_finite sy my ey)) = true.
Proof.
  intros Hx%valid_binary_canonical Hy%valid_binary_canonical Hg Hle.
  destruct (SFsub_finite sx sy mx my ex ey Hx Hy) as (n & -> & Hn).
  apply binary_normalize_lower; [|done|by rewrite Hn].
  apply canonical_inv in Hx, Hy. lia.
Qed.

(** A difference that is not positive does not round to a positive
    float. *)
Lemma SFsub_nonpos (sx sy : bool) (mx my : positive) (ex ey : Z) :
  valid_binary prec emax (S754_finite sx mx ex) = true ->
  valid_binary prec emax (S754_finite sy my ey) = true ->
  SF2Z (S754_finite sx mx ex) <= SF2Z (S754_finite sy my ey) ->
  SFleb (SFsub prec emax (S754_finite sx mx ex) (S754_finite sy my ey))
    (S754_zero false) = true.
Proof.
  intros Hx%valid_binary_canonical Hy%valid_binary_canonical Hle.
  destruct (SFsub_finite sx sy mx my ex ey Hx Hy) as (n & -> & Hn).
  assert (He : emin <= Z.min ex ey)
    by (apply canonical_inv in Hx, Hy; lia).
  assert (0 < 2 ^ (Z.min ex ey - emin)) by (apply Z.pow_pos_nonneg; lia).
  destruct (Z.eq_dec n 0) as [->|Hn0]; [done|].
  destruct (binary_normalize_exact n _ false He Hn0) as (m & e' & -> & _).
  replace (n <? 0) with true by (symmetry; apply Z.ltb_lt; nia).
  unfold finite_or_overflow. by destruct (_ <=? _).
Qed.
End SpecFloatFacts.


(** * Kinds and counts

    These results hold whatever the arithmetic: no property of [FloatOps]
    is used. *)

Section Dominance.
Import GameRules.

Lemma determineWinner_same (a : ObjectType) : determineWinner a a = a.
Proof. unfold determineWinner. destruct (decide (a = a)); [done|by destruct a]. Qed.

Lemma determineWinner_closed (a b : ObjectType) :
  determineWinner a b = a \/ determineWinner a b = b.
Proof. destruct a, b; compute; auto. Qed.
End Dominance.

Section Counting.
Context {F : Type} `{FloatOps F}.
Import RPSSimulator.

Lemma fold_count_step (l : list (GameObject.t F)) (r p s : Z) :
  fold_left count_step l (r, p, s)
  = (r + tally ROCK l, p + tally PAPER l, s + tally SCISSORS l).
Proof.
  revert r p s. induction l as [|o l IH]; intros r p s; simpl.
  - rewrite !pair_equal_spec; lia.
  - destruct (GameObject.type o) eqn:E; rewrite IH;
      repeat case_decide; try congruence;
      rewrite !pair_equal_spec; lia.
Qed.

Lemma getTypeCounts_tally (s : t F) :
  getTypeCounts s
  = (tally ROCK (objects s), tally PAPER (objects s),
     tally SCISSORS (objects s)).
Proof. unfold getTypeCounts. by rewrite fold_count_step. Qed.

Lemma tally_nonneg (k : ObjectType) (l : list (GameObject.t F)) :
  0 <= tally k l.
Proof. induction l; simpl; [lia|]. destruct (decide _); lia. Qed.

Lemma tally_total (l : list (GameObject.t F)) :
  tally ROCK l + tally PAPER l + tally SCISSORS l = Z.of_nat (length l).
Proof.
  induction l as [|o l IH]; [done|].
  cbn [tally length]. rewrite Nat2Z.inj_succ.
  destruct (GameObject.type o);
    repeat (destruct (decide _); try congruence); lia.
Qed.

Lemma tally_zero (k : ObjectType) (l : list (GameObject.t F)) :
  tally k l = 0 <-> Forall (fun o => GameObject.type o <> k) l.
Proof.
  induction l as [|o l IH]; simpl.
  - split; [constructor|done].
  - pose proof (tally_nonneg k l). rewrite Forall_cons.
    case_decide; split.
    + lia.
    + intros [? _]; done.
    + intros ?. split; [done|]. apply IH. lia.
    + intros [_ Hl]. apply IH in Hl. lia.
Qed.

Lemma tally_all (k : ObjectType) (l : list (GameObject.t F)) :
  Forall (fun o => GameObject.type o = k) l ->
  forall k', k' <> k -> tally k' l = 0.
Proof.
  intros Hall k' Hne. apply tally_zero.
  eapply Forall_impl; [exact Hall|]. simpl. congruence.
Qed.
End Counting.

(** ** Invariants of the collision loops *)

Section Loops.
Context {F : Type} `{FloatOps F} {order : EvaluationOrder}.
Import RPSSimulator.

Section Invariant.
Variable P : list (GameObject.t F) -> Prop.
Hypothesis P_collide :
  forall i j l, (i < j)%nat -> P l -> P (collide i j l).

Lemma inner_loop_inv (i j todo : nat) (l : list (GameObject.t F)) :
  (i < j)%nat -> P l -> P (inner_loop i j todo l).
Proof.
  revert j l. induction todo as [|todo IH]; intros j l Hij Hl; simpl; auto.
Qed.

Lemma outer_loop_inv (i todo : nat) (l : list (GameObject.t F)) :
  P l -> P (outer_loop i todo l).
Proof.
  revert i l. induction todo as [|todo IH]; intros i l Hl; simpl; auto.
  apply IH. apply inner_loop_inv; [lia|done].
Qed.

Lemma collisions_inv (l : list (GameObject.t F)) :
  P l -> P (collisions l).
Proof. apply outer_loop_inv. Qed.
End Invariant.

Lemma collide_length (i j : nat) (l : list (GameObject.t F)) :
  length (collide i j l) = length l.
Proof.
  unfold collide.
  destruct (l !! i) as [a|], (l !! j) as [b|]; try done.
  destruct (GameObject.collidesWith a b); [|done].
  destruct (GameRules.resolveCollision a b).
  by rewrite !length_insert.
Qed.

Lemma collisions_length (l : list (GameObject.t F)) :
  length (collisions l) = length l.
Proof.
  apply (collisions_inv (fun l' => length l' = length l)); [|done].
  intros i j l' _ <-. apply collide_length.
Qed.

Lemma update_length (s : t F) :
  length (objects (update s)) = length (objects s).
Proof.
  unfold update, motion; simpl.
  by rewrite collisions_length, length_map.
Qed.

Lemma ticks_length (n : nat) (s : t F) :
  length (objects (ticks n s)) = length (objects s).
Proof.
  induction n as [|n IH]; [done|].
  change (ticks (S n) s) with (update (ticks n s)).
  by rewrite update_length.
Qed.

Lemma new_length (width height : F) (seeded vel : Gen F) :
  length (objects (new width height seeded vel).1) = 15%nat.
Proof. reflexivity. Qed.

(** *** Kinds *)

Lemma move_type (width height : F) (o : GameObject.t F) :
  GameObject.type (move width height o) = GameObject.type o.
Proof.
  unfold move, GameObject.handleBoundaries.
  repeat (destruct (_ || _); simpl); done.
Qed.

Lemma resolveCollision_type (a b : GameObject.t F) :
  let w := GameRules.determineWinner (GameObject.type a) (GameObject.type b) in
  GameObject.type (GameRules.resolveCollision a b).1 = w /\
  GameObject.type (GameRules.resolveCollision a b).2 = w.
Proof. unfold GameRules.resolveCollision. by destruct (flt _ _). Qed.

Lemma collide_all_of (k : ObjectType) (i j : nat) (l : list (GameObject.t F)) :
  all_of k l -> all_of k (collide i j l).
Proof.
  unfold all_of, collide. intros Hl.
  destruct (l !! i) as [a|] eqn:Ha, (l !! j) as [b|] eqn:Hb; try done.
  destruct (GameObject.collidesWith a b); [|done].
  pose proof (resolveCollision_type a b) as [H1 H2].
  destruct (GameRules.resolveCollision a b) as [a' b']; simpl in *.
  rewrite Forall_lookup in Hl.
  rewrite (Hl _ _ Ha), (Hl _ _ Hb), determineWinner_same in H1, H2.
  apply Forall_insert; [apply Forall_insert|]; try done.
  by apply Forall_lookup.
Qed.

Lemma update_all_of (k : ObjectType) (s : t F) :
  all_of k (objects s) -> all_of k (objects (update s)).
Proof.
  intros Hs. unfold update; simpl.
  apply (collisions_inv (all_of k)); [intros; by apply collide_all_of|].
  unfold motion, all_of. apply Forall_map.
  eapply Forall_impl; [exact Hs|]. intros o Ho; simpl.
  by rewrite move_type.
Qed.

Lemma isGameOver_all_of (s : t F) :
  isGameOver s = true <-> exists k, all_of k (objects s).
Proof.
  unfold isGameOver. rewrite getTypeCounts_tally.
  pose proof (tally_nonneg ROCK (objects s)).
  pose proof (tally_nonneg PAPER (objects s)).
  pose proof (tally_nonneg SCISSORS (objects s)).
  split.
  - intros Hle. apply Z.leb_le in Hle.
    assert (Hk : exists k, forall k', k' <> k -> tally k' (objects s) = 0).
    { destruct (Z.ltb_spec 0 (tally ROCK (objects s)));
      destruct (Z.ltb_spec 0 (tally PAPER (objects s)));
      destruct (Z.ltb_spec 0 (tally SCISSORS (objects s)));
      simpl in Hle; try lia;
      [exists ROCK|exists PAPER|exists SCISSORS|exists ROCK];
      intros []; try congruence; lia. }
    destruct Hk as [k Hk]. exists k.
    apply Forall_forall. intros o Ho.
    destruct (decide (GameObject.type o = k)) as [|Hne]; [done|].
    specialize (Hk _ Hne). rewrite tally_zero, Forall_forall in Hk.
    by specialize (Hk o Ho).
  - intros [k Hk]. pose proof (tally_all k _ Hk) as Hz.
    apply Z.leb_le.
    destruct k;
      [rewrite (Hz PAPER), (Hz SCISSORS) by done
      |rewrite (Hz ROCK), (Hz SCISSORS) by done
      |rewrite (Hz ROCK), (Hz PAPER) by done];
      simpl; destruct (0 <? _); simpl; lia.
Qed.
End Loops.


(** * Positions *)

(** ** A generation without contact is pure motion *)

Section NoOverlap.
Context {F : Type} `{FloatOps F}.
Import RPSSimulator.

Lemma no_overlap_lookup (l : list (GameObject.t F)) :
  no_overlap l = true ->
  forall i j a b, (i < j)%nat -> l !! i = Some a -> l !! j = Some b ->
                  GameObject.collidesWith a b = false.
Proof.
  induction l as [|o l IH]; intros Hno i j a b Hij Hi Hj; [done|].
  simpl in Hno. apply andb_true_iff in Hno as [Hhd Htl].
  destruct i as [|i], j as [|j]; try lia; simpl in Hi, Hj.
  - injection Hi as ->. rewrite forallb_forall in Hhd.
    apply negb_true_iff, Hhd, list_elem_of_In.
    by eapply list_elem_of_lookup_2.
  - apply (IH Htl i j a b); [lia|done|done].
Qed.

Lemma collisions_no_overlap (l : list (GameObject.t F)) :
  no_overlap l = true -> collisions l = l.
Proof.
  intros Hno. apply (collisions_inv (fun l' => l' = l)); [|done].
  intros i j l' Hij ->. unfold collide.
  destruct (l !! i) as [a|] eqn:Ha, (l !! j) as [b|] eqn:Hb; try done.
  by rewrite (no_overlap_lookup l Hno i j a b).
Qed.
End NoOverlap.

(** ** Order on binary32 *)

Section Order.
Lemma SFltb_SFleb (a b : spec_float) : SFltb a b = true -> SFleb a b = true.
Proof. unfold SFltb, SFleb. by destruct (SFcompare a b) as [[]|]. Qed.

Lemma SFcompare_refl (a : spec_float) :
  is_nan a = false -> SFcompare a a = Some Eq.
Proof.
  destruct a as [s|s| |s m e]; try done; intros _; simpl.
  - by destruct s.
  - rewrite Z.compare_refl, Pos.compare_cont_refl. by destruct s.
Qed.

Lemma SFleb_refl (a : spec_float) : is_nan a = false -> SFleb a a = true.
Proof. intros Ha. unfold SFleb. by rewrite SFcompare_refl. Qed.

Lemma SFleb_not_nan (a b : spec_float) :
  SFleb a b = true -> is_nan a = false /\ is_nan b = false.
Proof. by destruct a, b. Qed.

Lemma SFeqb_not_SFltb (a b : spec_float) :
  SFcompare a b = Some Eq -> SFltb a b = false.
Proof. unfold SFltb. by intros ->. Qed.

(** [std::max(lo, std::min(hi, v))] lies between [lo] and [hi], whatever
    [v] is, as soon as [lo <= hi]. *)
Lemma clamp_within (lo hi v : binary32) :
  fle lo hi = true ->
  fle lo (clamp lo hi v) = true /\ fle (clamp lo hi v) hi = true.
Proof.
  intros Hle. pose proof (SFleb_not_nan _ _ Hle) as [Hlo Hhi].
  unfold clamp, std_max, std_min. cbn [flt fle binary32_ops] in *.
  destruct (SFltb v hi) eqn:Hv.
  - destruct (SFltb lo v) eqn:Hl.
    + split; by apply SFltb_SFleb.
    + split; [by apply SFleb_refl|done].
  - destruct (SFltb lo hi) eqn:Hl.
    + split; [done|by apply SFleb_refl].
    + split; [by apply SFleb_refl|done].
Qed.
End Order.


(** ** What [handleBoundaries] leaves in each field *)

Section Boundaries.
Context {F : Type} `{FloatOps F}.
Import GameObject.
Local Open Scope float_scope.

Lemma handleBoundaries_x (width height : F) (o : t F) :
  x (handleBoundaries width height o)
  = if hits_x width o then clamp (radius o) (width - radius o) (x o)
    else x o.
Proof.
  unfold handleBoundaries, hits_x, clamp.
  cbv zeta.
  destruct ((x o - radius o <=? of_int 0) || (x o + radius o >=? width));
    cbn [x y vx vy radius]; by destruct (_ || _).
Qed.

Lemma handleBoundaries_vx (width height : F) (o : t F) :
  vx (handleBoundaries width height o)
  = if hits_x width o then - vx o else vx o.
Proof.
  unfold handleBoundaries, hits_x.
  cbv zeta.
  destruct ((x o - radius o <=? of_int 0) || (x o + radius o >=? width));
    cbn [x y vx vy radius]; by destruct (_ || _).
Qed.

Lemma handleBoundaries_y (width height : F) (o : t F) :
  y (handleBoundaries width height o)
  = if hits_y height o then clamp (radius o) (height - radius o) (y o)
    else y o.
Proof.
  unfold handleBoundaries, hits_y, clamp.
  cbv zeta.
  destruct ((x o - radius o <=? of_int 0) || (x o + radius o >=? width));
    cbn [x y vx vy radius]; by destruct (_ || _).
Qed.

Lemma handleBoundaries_vy (width height : F) (o : t F) :
  vy (handleBoundaries width height o)
  = if hits_y height o then - vy o else vy o.
Proof.
  unfold handleBoundaries, hits_y.
  cbv zeta.
  destruct ((x o - radius o <=? of_int 0) || (x o + radius o >=? width));
    cbn [x y vx vy radius]; by destruct (_ || _).
Qed.

Lemma handleBoundaries_radius (width height : F) (o : t F) :
  radius (handleBoundaries width height o) = radius o.
Proof.
  unfold handleBoundaries.
  cbv zeta.
  destruct ((x o - radius o <=? of_int 0) || (x o + radius o >=? width));
    cbn [x y vx vy radius]; by destruct (_ || _).
Qed.
End Boundaries.

(** ** The motion phase in binary32 *)

Section Motion32.
Import GameObject.
Local Open Scope float_scope.
Local Abbreviation val := (SF2Z B32.prec B32.emax).

Lemma B32_prec_pos : (0 < B32.prec)%Z.
Proof. done. Qed.

(** One axis of [handleBoundaries]: whether the test fires or not, the
    coordinate ends between [r] and [limit - r]. *)
Lemma axis_within (limit r c : binary32) :
  B32.positive limit = true -> B32.positive r = true ->
  B32.valid c = true -> is_nan c = false ->
  (r <=? limit - r) = true ->
  let c' := if (c - r <=? of_int 0) || (c + r >=? limit)
            then clamp r (limit - r) c else c in
  (r <=? c') = true /\ (c' <=? limit - r) = true.
Proof.
  intros Hw Hr Hc Hnan Hfit. cbn zeta.
  destruct (_ || _) eqn:Hcond; [by apply clamp_within|].
  apply orb_false_iff in Hcond as [H1 H2].
  cbn [fle fsub fadd of_int binary32_ops] in *.
  destruct limit as [| | |[] mw ew]; try done.
  destruct r as [| | |[] mr er]; try done.
  unfold B32.positive, B32.valid in *.
  destruct c as [sc|sc| |sc mc ec]; try done.
  { destruct sc; cbn in H1, H2; done. }
  pose proof (SF2Z_sign _ _ false _ _
                (valid_binary_canonical _ _ _ _ _ Hr)) as Hrpos.
  pose proof (SF2Z_sign _ _ sc _ _
                (valid_binary_canonical _ _ _ _ _ Hc)) as Hcsign.
  cbv beta iota in Hrpos.
  assert (Hgt : val (S754_finite false mr er) < val (S754_finite sc mc ec)).
  { destruct (Z.le_gt_cases (val (S754_finite sc mc ec))
                (val (S754_finite false mr er))) as [Hle|]; [|lia].
    by rewrite (SFsub_nonpos _ _ B32_prec_pos) in H1. }
  destruct sc; [lia|]. clear Hcsign.
  assert (Hlt : val (S754_finite false mc ec) + val (S754_finite false mr er)
                < val (S754_finite false mw ew)).
  { destruct (Z.le_gt_cases (val (S754_finite false mw ew))
                (val (S754_finite false mc ec)
                 + val (S754_finite false mr er))) as [Hle|]; [|lia].
    by rewrite (SFadd_lower _ _ B32_prec_pos) in H2. }
  split.
  + unfold SFleb.
    rewrite (SFcompare_SF2Z _ _ B32_prec_pos) by done.
    apply Z.compare_lt_iff in Hgt. by rewrite Hgt.
  + apply (SFsub_lower _ _ B32_prec_pos); try done.
    change (mag B32.prec B32.emax mc ec) with (val (S754_finite false mc ec)).
    lia.
Qed.

Lemma B32_finite_inv (f : binary32) :
  B32.finite f = true ->
  finite_or_zero f = true /\ valid_binary B32.prec B32.emax f = true.
Proof. by destruct f. Qed.

Lemma update_coordinates_valid (a v : binary32) :
  B32.finite a = true -> B32.finite v = true ->
  B32.valid (a + v) = true /\ is_nan (a + v) = false.
Proof.
  intros [? ?]%B32_finite_inv [? ?]%B32_finite_inv.
  by apply (SFadd_valid _ _ B32_prec_pos).
Qed.

Lemma move_within_bounds (width height : binary32) (o : t binary32) :
  B32.positive width = true -> B32.positive height = true ->
  well_formed_object width height o = true ->
  within_bounds width height (RPSSimulator.move width height o) = true.
Proof.
  intros Hw Hh Ho. unfold well_formed_object in Ho.
  repeat (apply andb_true_iff in Ho as [Ho ?]).
  destruct (update_coordinates_valid (x o) (vx o)) as [Hxv Hxn]; [done..|].
  destruct (update_coordinates_valid (y o) (vy o)) as [Hyv Hyn]; [done..|].
  unfold within_bounds, RPSSimulator.move.
  rewrite handleBoundaries_radius, handleBoundaries_x, handleBoundaries_y.
  unfold hits_x, hits_y. cbn [update x y radius].
  destruct (axis_within width (radius o) (x o + vx o)) as [-> ->]; [done..|].
  destruct (axis_within height (radius o) (y o + vy o)) as [-> ->]; [done..|].
  done.
Qed.

Lemma motion_within_bounds (s : RPSSimulator.t binary32) :
  well_formed s = true ->
  Forall (fun o => within_bounds (RPSSimulator.boxWidth s)
                     (RPSSimulator.boxHeight s) o = true)
         (RPSSimulator.motion s).
Proof.
  unfold well_formed. intros [[Hw Hh]%andb_true_iff Hall]%andb_true_iff.
  unfold RPSSimulator.motion. apply Forall_map, Forall_forall.
  intros o Ho%list_elem_of_In. simpl.
  rewrite forallb_forall in Hall. by apply move_within_bounds, Hall.
Qed.
End Motion32.


(** * The dominance rule *)

Section DominanceRule.
Import GameRules.

(** C4: the dominance function follows the classic table: Rock beats
    Scissors, Scissors beats Paper, Paper beats Rock, and two equal kinds
    give that kind. *)
Theorem determineWinner_table :
  determineWinner ROCK SCISSORS = ROCK /\
  determineWinner SCISSORS PAPER = SCISSORS /\
  determineWinner PAPER ROCK = PAPER /\
  forall a, determineWinner a a = a.
Proof. repeat split. intros []; reflexivity. Qed.

(** C5: the dominance function is symmetric in its two arguments. *)
Theorem determineWinner_symmetric (a b : ObjectType) :
  determineWinner a b = determineWinner b a.
Proof. destruct a, b; reflexivity. Qed.
End DominanceRule.

(** * Population *)

Section Population.
Context {F : Type} `{FloatOps F} {order : EvaluationOrder}.
Import RPSSimulator.

Lemma all_of_kinds (k : ObjectType) (l : list (GameObject.t F)) :
  all_of k l -> map GameObject.type l = replicate (length l) k.
Proof. induction 1 as [|o l Ho _ IH]; simpl; congruence. Qed.

Lemma ticks_all_of (k : ObjectType) (n : nat) (s : t F) :
  all_of k (objects s) -> all_of k (objects (ticks n s)).
Proof.
  intros Hs. induction n as [|n IH]; [done|].
  change (ticks (S n) s) with (update (ticks n s)).
  by apply update_all_of.
Qed.

Lemma getWinner_first_present (s : t F) :
  getWinner s = first_present (objects s).
Proof.
  unfold getWinner, first_present. rewrite getTypeCounts_tally.
  destruct (decide (0 < tally ROCK (objects s))),
    (Z.ltb_spec 0 (tally ROCK (objects s))); try lia; [done|].
  destruct (decide (0 < tally PAPER (objects s))),
    (Z.ltb_spec 0 (tally PAPER (objects s))); try lia; [done|].
  destruct (decide (0 < tally SCISSORS (objects s))),
    (Z.ltb_spec 0 (tally SCISSORS (objects s))); try lia; done.
Qed.

(** C8: from the standard initialization on, there are fifteen objects
    after any number of generations, and the three counts of
    [getTypeCounts] add up to the number of objects. *)
Theorem object_count_conserved (width height : F) (seeded vel : Gen F)
    (n : nat) :
  let s := ticks n (new width height seeded vel).1 in
  length (objects s) = 15%nat /\
  (let '(rocks, papers, scissors) := getTypeCounts s in
   rocks + papers + scissors = Z.of_nat (length (objects s))).
Proof.
  cbv zeta. split.
  - by rewrite ticks_length, new_length.
  - rewrite getTypeCounts_tally. apply tally_total.
Qed.

(** C9: once [isGameOver] holds it holds after any number of further
    generations, and no object changes kind. *)
Theorem isGameOver_absorbing (s : t F) (n : nat) :
  isGameOver s = true ->
  isGameOver (ticks n s) = true /\
  map GameObject.type (objects (ticks n s))
  = map GameObject.type (objects s).
Proof.
  intros [k Hk]%isGameOver_all_of.
  pose proof (ticks_all_of k n s Hk) as Hn. split.
  - apply isGameOver_all_of. by exists k.
  - by rewrite (all_of_kinds k _ Hn), (all_of_kinds k _ Hk), ticks_length.
Qed.

(** C3, as the program has it: [getWinner] has no failure path.  Called
    while [isGameOver] is false it returns normally, with the first kind
    in the order Rock, Paper, Scissors that is still present. *)
Theorem getWinner_returns (s : t F) :
  isGameOver s = false ->
  call_getWinner s = Returns (first_present (objects s)) /\
  0 < tally (first_present (objects s)) (objects s).
Proof.
  intros Hover. split.
  - unfold call_getWinner. by rewrite getWinner_first_present.
  - unfold first_present. repeat case_decide; try done.
    exfalso. assert (Hall : all_of ROCK (objects s)).
    { apply Forall_forall. intros o Ho.
      pose proof (tally_nonneg PAPER (objects s)).
      pose proof (tally_nonneg SCISSORS (objects s)).
      assert (Hp : tally PAPER (objects s) = 0) by lia.
      assert (Hs : tally SCISSORS (objects s) = 0) by lia.
      rewrite tally_zero, Forall_forall in Hp, Hs.
      specialize (Hp o Ho). specialize (Hs o Ho).
      by destruct (GameObject.type o). }
    assert (isGameOver s = true) by (apply isGameOver_all_of; by exists ROCK).
    congruence.
Qed.
End Population.

Section PopulationScenarios.
Import RPSSimulator Scenario.

Lemma isGameOver_absorbing_witness :
  isGameOver only_rocks = true /\
  (isGameOver (ticks 3 only_rocks) = true /\
   map GameObject.type (objects (ticks 3 only_rocks))
   = map GameObject.type (objects only_rocks)).
Proof.
  split; [reflexivity|].
  apply (isGameOver_absorbing only_rocks 3). reflexivity.
Defined.

(** C3, as stated, fails: with a Rock and a Paper in the arena the game
    is not over, and [getWinner] returns Rock. *)
Lemma getWinner_undecided_returns :
  isGameOver undecided = false /\
  call_getWinner undecided = Returns ROCK /\
  call_getWinner undecided <> Fatal.
Proof. repeat split. discriminate. Qed.

Lemma getWinner_returns_witness :
  isGameOver undecided = false /\
  (call_getWinner undecided = Returns (first_present (objects undecided)) /\
   0 < tally (first_present (objects undecided)) (objects undecided)).
Proof.
  split; [reflexivity|]. apply (getWinner_returns undecided). reflexivity.
Defined.
End PopulationScenarios.


(** * Overlap *)

Section Overlap.
Import GameObject Scenario.

Lemma Rltb_iff (a b : R) : Rltb a b = true <-> (a < b)%R.
Proof. unfold Rltb. destruct (Rlt_dec a b); split; done. Qed.

Lemma SFltb_iff (a b : spec_float) :
  SFltb a b = true <-> SFcompare a b = Some Lt.
Proof. unfold SFltb. destruct (SFcompare a b) as [[]|]; split; done. Qed.

(** The binary32 numbers of the scenarios, read as real numbers. *)
Lemma to_real_scenario :
  to_real (f32 0) = 0%R /\ to_real (f32 5) = 5%R /\
  to_real (f32 20) = 20%R /\ to_real (f32 26) = 26%R /\
  to_real almost_eight = (8 - / 2 ^ 21)%R /\
  to_real almost_sixteen = (16 - / 2 ^ 20)%R.
Proof.
  change (f32 0) with (S754_zero false).
  change (f32 5) with (S754_finite false 10485760 (-21)).
  change (f32 20) with (S754_finite false 10485760 (-19)).
  change (f32 26) with (S754_finite false 13631488 (-19)).
  unfold almost_eight, almost_sixteen, to_real.
  change (0 <=? -19) with false. change (0 <=? -20) with false.
  change (0 <=? -21) with false. cbv iota zeta.
  change (2 ^ (- (-19))) with 524288. change (2 ^ (- (-20))) with 1048576.
  change (2 ^ (- (-21))) with 2097152.
  repeat split; lra.
Qed.

Lemma sf_eqb_eq (a b : spec_float) : Lattice.sf_eqb a b = true -> a = b.
Proof.
  destruct a as [s1|s1| |s1 m1 e1], b as [s2|s2| |s2 m2 e2]; simpl; try done.
  - by intros ->%eqb_prop.
  - by intros ->%eqb_prop.
  - rewrite !andb_true_iff, Pos.eqb_eq, Z.eqb_eq.
    by intros [[->%eqb_prop ->] ->].
Qed.

Lemma forallb_seqZ (P : Z -> bool) (m n k : Z) :
  forallb P (seqZ m n) = true -> m <= k < m + n -> P k = true.
Proof.
  rewrite forallb_forall. intros HP Hk. apply HP.
  by apply list_elem_of_In, elem_of_seqZ.
Qed.

Lemma fsub_on_lattice (a b : Z) :
  0 <= a <= 100 -> 0 <= b <= 100 -> fsub (f32 a) (f32 b) = f32 (a - b).
Proof.
  intros Ha Hb. apply sf_eqb_eq.
  assert (Hall : Lattice.differences_exact = true) by (vm_compute; reflexivity).
  unfold Lattice.differences_exact in Hall.
  apply (forallb_seqZ _ 0 101 a) in Hall; [|lia].
  apply (forallb_seqZ _ 0 101 b) in Hall; [|lia]. exact Hall.
Qed.

Lemma fmul_on_lattice (d : Z) :
  -100 <= d <= 100 -> fmul (f32 d) (f32 d) = f32 (d * d).
Proof.
  intros Hd. apply sf_eqb_eq.
  assert (Hall : Lattice.squares_exact = true) by (vm_compute; reflexivity).
  unfold Lattice.squares_exact in Hall.
  apply (forallb_seqZ _ (-100) 201 d) in Hall; [|lia]. exact Hall.
Qed.

Lemma test_on_lattice (a b : Z) :
  0 <= a <= 100 -> 0 <= b <= 100 ->
  flt (fsqrt (fadd (f32 (a * a)) (f32 (b * b)))) (fadd (f32 5) (f32 5))
  = (a * a + b * b <? (5 + 5) * (5 + 5)).
Proof.
  intros Ha Hb. apply eqb_prop.
  assert (Hall : Lattice.test_exact = true) by (vm_compute; reflexivity).
  unfold Lattice.test_exact in Hall.
  apply (forallb_seqZ _ 0 101 a) in Hall; [|lia].
  apply (forallb_seqZ _ 0 101 b) in Hall; [|lia]. exact Hall.
Qed.

(** C6: [collidesWith] compares the distance as the program computes it
    with the sum of the radii as the program computes it, strictly: it
    holds exactly when the first is below the second, and not at equal
    values.  In exact arithmetic the computed distance is the Euclidean
    one.  In binary32 the test is the strict Euclidean test for objects
    of radius 5, as the constructor makes them, at integer positions of
    the 100 by 100 arena; so the centres at 45 and 55, which is where the
    head-on pair stands after five generations, do not overlap. *)
Theorem collidesWith_compares_computed_distance :
  (forall a b : t binary32,
     collidesWith a b = true <->
     SFcompare (distance a b) (fadd (radius a) (radius b)) = Some Lt) /\
  (forall a b : t binary32,
     SFcompare (distance a b) (fadd (radius a) (radius b)) = Some Eq ->
     collidesWith a b = false) /\
  (forall a b : t R,
     collidesWith a b = true <->
     (sqrt ((x a - x b) * (x a - x b) + (y a - y b) * (y a - y b))
      < radius a + radius b)%R) /\
  (forall (ka kb : ObjectType) (xa ya xb yb : Z) (va wa vb wb : binary32),
     0 <= xa <= 100 -> 0 <= ya <= 100 ->
     0 <= xb <= 100 -> 0 <= yb <= 100 ->
     collidesWith (agent ka (f32 xa) (f32 ya) va wa)
                  (agent kb (f32 xb) (f32 yb) vb wb) = true <->
     (xa - xb) * (xa - xb) + (ya - yb) * (ya - yb) < (5 + 5) * (5 + 5)) /\
  (let a := agent ROCK (f32 45) (f32 50) (f32 1) (f32 0) in
   let b := agent SCISSORS (f32 55) (f32 50) (f32 (-1)) (f32 0) in
   distance a b = f32 10 /\ fadd (radius a) (radius b) = f32 10 /\
   collidesWith a b = false /\
   RPSSimulator.objects (RPSSimulator.ticks 5 head_on) = [a; b]).
Proof.
  split; [|split; [|split; [|split]]].
  - intros a b. apply SFltb_iff.
  - intros a b. apply SFeqb_not_SFltb.
  - intros a b. apply Rltb_iff.
  - intros ka kb xa ya xb yb va wa vb wb Hxa Hya Hxb Hyb.
    unfold collidesWith, agent. cbn [x y radius].
    rewrite (fsub_on_lattice xa xb), (fsub_on_lattice ya yb) by done.
    rewrite (fmul_on_lattice (xa - xb)), (fmul_on_lattice (ya - yb)) by lia.
    replace ((xa - xb) * (xa - xb))
      with (Z.abs (xa - xb) * Z.abs (xa - xb)) by lia.
    replace ((ya - yb) * (ya - yb))
      with (Z.abs (ya - yb) * Z.abs (ya - yb)) by lia.
    rewrite test_on_lattice by lia. apply Z.ltb_lt.
  - repeat split; reflexivity.
Qed.

(** For C6: the centres of the claim, at 45 and 55 on the line [y = 50],
    and the same pair one step closer. *)
Lemma collidesWith_compares_computed_distance_witness :
  (0 <= 45 <= 100 /\ 0 <= 50 <= 100 /\ 0 <= 55 <= 100 /\ 0 <= 54 <= 100) /\
  (collidesWith (agent ROCK (f32 45) (f32 50) (f32 1) (f32 0))
                (agent SCISSORS (f32 55) (f32 50) (f32 (-1)) (f32 0)) = true
   <-> (45 - 55) * (45 - 55) + (50 - 50) * (50 - 50) < (5 + 5) * (5 + 5)) /\
  (collidesWith (agent ROCK (f32 45) (f32 50) (f32 1) (f32 0))
                (agent SCISSORS (f32 54) (f32 50) (f32 (-1)) (f32 0)) = true
   <-> (45 - 54) * (45 - 54) + (50 - 50) * (50 - 50) < (5 + 5) * (5 + 5)).
Proof.
  assert (H45 : 0 <= 45 <= 100) by lia. assert (H50 : 0 <= 50 <= 100) by lia.
  assert (H55 : 0 <= 55 <= 100) by lia. assert (H54 : 0 <= 54 <= 100) by lia.
  split; [done|].
  destruct collidesWith_compares_computed_distance
    as (_ & _ & _ & Hlattice & _).
  split.
  - exact (Hlattice ROCK SCISSORS 45 50 55 50 (f32 1) (f32 0) (f32 (-1))
             (f32 0) H45 H50 H55 H50).
  - exact (Hlattice ROCK SCISSORS 45 50 54 50 (f32 1) (f32 0) (f32 (-1))
             (f32 0) H45 H50 H54 H50).
Defined.

(** C6, as the claim has it, fails in binary32.  The centres of
    [close_a] and [close_b] are [6] and [8 - 2^-21] apart along the two
    axes, so their distance is below 10, the sum of the radii: read in
    exact arithmetic the two objects overlap.  The program rounds the
    square of [8 - 2^-21] to [64 - 2^-17] and the square root of
    [100 - 2^-17] to [10], and [10 < 10] is false. *)
Lemma collidesWith_misses_a_closer_pair :
  x (exact close_a) = 20%R /\ y (exact close_a) = (8 - / 2 ^ 21)%R /\
  x (exact close_b) = 26%R /\ y (exact close_b) = (16 - / 2 ^ 20)%R /\
  radius (exact close_a) = 5%R /\ radius (exact close_b) = 5%R /\
  collidesWith (exact close_a) (exact close_b) = true /\
  fmul (fsub (y close_a) (y close_b)) (fsub (y close_a) (y close_b))
  = S754_finite false 16777214 (-18) /\
  distance close_a close_b = f32 10 /\
  fadd (radius close_a) (radius close_b) = f32 10 /\
  collidesWith close_a close_b = false.
Proof.
  destruct to_real_scenario as (H0 & H5 & H20 & H26 & H8 & H16).
  do 6 (split; [assumption|]).
  split; [|repeat split; vm_compute; reflexivity].
  apply Rltb_iff.
  change (sqrt ((to_real (f32 20) - to_real (f32 26))
                * (to_real (f32 20) - to_real (f32 26))
                + (to_real almost_eight - to_real almost_sixteen)
                  * (to_real almost_eight - to_real almost_sixteen))
          < to_real (f32 5) + to_real (f32 5))%R.
  rewrite H5, H20, H26, H8, H16.
  replace (5 + 5)%R with (sqrt 100).
  2: { replace 100%R with (10 * 10)%R by lra. rewrite sqrt_square; lra. }
  apply sqrt_lt_1_alt. lra.
Qed.
End Overlap.

(** * Wall reflection *)

Section Reflection.
Import GameObject Scenario.
Local Open Scope float_scope.

(** C7: when [x - radius <= 0] or [x + radius >= width],
    [handleBoundaries] negates [vx] and sets [x] to
    [max(radius, min(width - radius, x))], which lies between [radius]
    and [width - radius]; otherwise [x] and [vx] are kept; the same for
    [y].  The agent at [x = 96] with [vx = 2] ends the generation at
    [x = 95] with [vx = -2] and the next one at [x = 93]. *)
Theorem handleBoundaries_reflects :
  (forall (width height : binary32) (o : t binary32),
     (radius o <=? width - radius o) = true ->
     (radius o <=? height - radius o) = true ->
     let o' := handleBoundaries width height o in
     (if hits_x width o
      then vx o' = - vx o /\
           x o' = std_max (radius o) (std_min (width - radius o) (x o)) /\
           (radius o <=? x o') = true /\ (x o' <=? width - radius o) = true
      else vx o' = vx o /\ x o' = x o) /\
     (if hits_y height o
      then vy o' = - vy o /\
           y o' = std_max (radius o) (std_min (height - radius o) (y o)) /\
           (radius o <=? y o') = true /\ (y o' <=? height - radius o) = true
      else vy o' = vy o /\ y o' = y o) /\
     type o' = type o /\ radius o' = radius o) /\
  RPSSimulator.objects (RPSSimulator.ticks 1 at_wall)
  = [agent ROCK (f32 95) (f32 50) (f32 (-2)) (f32 0)] /\
  RPSSimulator.objects (RPSSimulator.ticks 2 at_wall)
  = [agent ROCK (f32 93) (f32 50) (f32 (-2)) (f32 0)].
Proof.
  split; [|split; reflexivity].
  intros width height o Hx Hy o'. subst o'.
  rewrite handleBoundaries_x, handleBoundaries_y, handleBoundaries_vx,
    handleBoundaries_vy, handleBoundaries_radius.
  split; [|split; [|split; [|done]]].
  - destruct (hits_x width o); [|done].
    pose proof (clamp_within _ _ (x o) Hx) as [? ?]. done.
  - destruct (hits_y height o); [|done].
    pose proof (clamp_within _ _ (y o) Hy) as [? ?]. done.
  - unfold handleBoundaries. cbv zeta.
    destruct (_ || _); cbn [x y vx vy radius type]; by destruct (_ || _).
Qed.

Lemma handleBoundaries_reflects_witness :
  let o := update (agent ROCK (f32 96) (f32 50) (f32 2) (f32 0)) in
  (radius o <=? f32 100 - radius o) = true /\
  hits_x (f32 100) o = true /\
  x (handleBoundaries (f32 100) (f32 100) o) = f32 95 /\
  vx (handleBoundaries (f32 100) (f32 100) o) = f32 (-2).
Proof.
  intros o. split; [reflexivity|]. split; [reflexivity|].
  pose proof (proj1 handleBoundaries_reflects (f32 100) (f32 100) o
                eq_refl eq_refl) as [Hx _].
  change (hits_x (f32 100) o) with true in Hx.
  destruct Hx as (Hvx & Hxc & _). split; [exact Hxc|exact Hvx].
Defined.
End Reflection.


(** * Separation after a collision *)

Section Separation.
Import GameObject GameRules Scenario.
Local Open Scope float_scope.

Lemma resolveCollision_fields {F : Type} `{FloatOps F} (a b : t F) :
  let r := resolveCollision a b in
  if distance a b >? of_int 0
  then x r.1 = x a + nudge (x a - x b) (distance a b) /\
       y r.1 = y a + nudge (y a - y b) (distance a b) /\
       x r.2 = x b - nudge (x a - x b) (distance a b) /\
       y r.2 = y b - nudge (y a - y b) (distance a b)
  else x r.1 = x a /\ y r.1 = y a /\ x r.2 = x b /\ y r.2 = y b.
Proof.
  unfold resolveCollision, distance, nudge. cbv zeta.
  by destruct (flt _ _).
Qed.

Lemma sqrt_sum_squares (u v : R) :
  (sqrt (u * u + v * v) * sqrt (u * u + v * v) = u * u + v * v)%R.
Proof. apply sqrt_sqrt. nra. Qed.

(** C10, as stated, fails in the program's arithmetic: for two
    overlapping agents one unit apart at [7 + 2^-21] and [6 + 2^-21] the
    first moves to [9] (the sum [9 + 2^-21] is not a binary32 number), the
    second to [4 + 2^-21], and [x1 + x2] changes, computed in binary32 or
    exactly. *)
Lemma resolveCollision_moves_midpoint :
  let r := resolveCollision odd_a odd_b in
  collidesWith odd_a odd_b = true /\
  x r.1 = f32 9 /\
  x r.1 + x r.2 <> x odd_a + x odd_b /\
  (SF2Z B32.prec B32.emax (x r.1) + SF2Z B32.prec B32.emax (x r.2)
   <> SF2Z B32.prec B32.emax (x odd_a) + SF2Z B32.prec B32.emax (x odd_b))%Z.
Proof. vm_compute. repeat split; discriminate. Qed.

(** C10, as the program has it: when the distance is not above zero,
    [resolveCollision] leaves both positions as they are; when it is, the
    same offset [(dx / d) * 2], [(dy / d) * 2] is added to the first
    position and subtracted from the second.  In exact arithmetic the
    sums [x1 + x2] and [y1 + y2] are therefore unchanged, and the offset
    has length 2. *)
Theorem resolveCollision_opposite_offsets :
  (forall (F : Type) (ops : FloatOps F) (a b : t F),
     let r := resolveCollision a b in
     if distance a b >? of_int 0
     then x r.1 = x a + nudge (x a - x b) (distance a b) /\
          y r.1 = y a + nudge (y a - y b) (distance a b) /\
          x r.2 = x b - nudge (x a - x b) (distance a b) /\
          y r.2 = y b - nudge (y a - y b) (distance a b)
     else x r.1 = x a /\ y r.1 = y a /\ x r.2 = x b /\ y r.2 = y b) /\
  (forall a b : t R,
     let r := resolveCollision a b in
     (x r.1 + x r.2 = x a + x b)%R /\
     (y r.1 + y r.2 = y a + y b)%R /\
     if distance a b >? of_int 0
     then ((x r.1 - x a) * (x r.1 - x a) + (y r.1 - y a) * (y r.1 - y a)
           = 2 * 2)%R
     else x r.1 = x a /\ y r.1 = y a).
Proof.
  split; [intros F ops a b; apply resolveCollision_fields|].
  intros a b r. pose proof (resolveCollision_fields a b) as Hf.
  fold r in Hf. cbv zeta in Hf.
  destruct (distance a b >? of_int 0) eqn:Hd.
  - destruct Hf as (-> & -> & -> & ->).
    unfold nudge. cbn [fadd fsub fmul fdiv of_int real_ops].
    apply Rltb_iff in Hd. cbn [of_int real_ops] in Hd.
    split; [ring|]. split; [ring|].
    pose proof (sqrt_sum_squares (x a - x b) (y a - y b)) as Hs.
    change (sqrt _) with (distance a b) in Hs.
    set (d := distance a b) in *.
    set (dx := (x a - x b)%R) in *. set (dy := (y a - y b)%R) in *.
    replace ((x a + dx / d * 2 - x a) * (x a + dx / d * 2 - x a)
             + (y a + dy / d * 2 - y a) * (y a + dy / d * 2 - y a))%R
      with (4 * (dx * dx + dy * dy) / (d * d))%R by (field; lra).
    rewrite <- Hs. field. lra.
  - destruct Hf as (-> & -> & -> & ->). done.
Qed.
End Separation.

(** * One generation and the walls *)

Section Walls.
Import GameObject RPSSimulator Scenario.

(** C1, as stated, fails: two agents within the bounds, not overlapping,
    fly towards the left wall; the first is reflected to [x = 5], the
    second reaches [x = 14], and the separation pushes the first to
    [x = 3], inside the wall, where the generation ends. *)
Lemma nudge_leaves_the_arena :
  well_formed by_the_wall = true /\
  forallb (within_bounds (f32 100) (f32 100)) (objects by_the_wall) = true /\
  no_overlap (objects by_the_wall) = true /\
  map x (motion by_the_wall) = [f32 5; f32 14] /\
  map x (objects (update by_the_wall)) = [f32 3; f32 16] /\
  forallb (within_bounds (f32 100) (f32 100)) (objects (update by_the_wall))
  = false.
Proof. repeat split; reflexivity. Qed.

(** C1, as the program has it: in a well-formed binary32 arena every
    object is within the bounds after the motion phase of [update], and
    after the whole of [update] when no two objects overlap once moved.
    (Objects that the collision phase pushes apart can end the
    generation outside.) *)
Theorem motion_phase_within_bounds (s : RPSSimulator.t binary32) :
  well_formed s = true ->
  Forall (fun o => within_bounds (boxWidth s) (boxHeight s) o = true)
         (motion s) /\
  (no_overlap (motion s) = true ->
   Forall (fun o => within_bounds (boxWidth s) (boxHeight s) o = true)
          (objects (update s))).
Proof.
  intros Hs. pose proof (motion_within_bounds s Hs) as Hm.
  split; [done|]. intros Hno. unfold update. cbn [objects].
  by rewrite collisions_no_overlap.
Qed.

(** The first agent hits the right wall, 96 to 95; the second moves from
    40 to 41; the pair is tested and does not overlap. *)
Lemma motion_phase_within_bounds_witness :
  well_formed at_wall_followed = true /\
  no_overlap (motion at_wall_followed) = true /\
  Forall (fun o => within_bounds (f32 100) (f32 100) o = true)
         (motion at_wall_followed) /\
  Forall (fun o => within_bounds (f32 100) (f32 100) o = true)
         (objects (update at_wall_followed)).
Proof.
  split; [reflexivity|]. split; [reflexivity|].
  destruct (motion_phase_within_bounds at_wall_followed eq_refl) as [Hm Hu].
  split; [exact Hm|exact (Hu eq_refl)].
Defined.
End Walls.


(** * Runs *)

Section Runs.
Context {F : Type} `{FloatOps F} {order : EvaluationOrder}.
Import RPSSimulator.

Lemma update_observe (s1 s2 : t F) :
  observe s1 = observe s2 -> observe (update s1) = observe (update s2).
Proof.
  unfold observe, update, motion. cbn [objects boxWidth boxHeight generation].
  intros [= -> -> -> ->]. done.
Qed.

Lemma ticks_observe (n : nat) (s1 s2 : t F) :
  observe s1 = observe s2 -> observe (ticks n s1) = observe (ticks n s2).
Proof.
  intros Hs. induction n as [|n IH]; [done|].
  change (ticks (S n) s1) with (update (ticks n s1)).
  change (ticks (S n) s2) with (update (ticks n s2)).
  by apply update_observe.
Qed.

(** Rewrites the first [n] draws of the generators related by [H]. *)
Ltac use_draws H n :=
  lazymatch n with
  | O => idtac
  | S ?k =>
      let E := fresh "E" in
      pose proof (H k ltac:(lia)) as E; cbn [Nat.add] in E;
      rewrite E; clear E; use_draws H k
  end.

Lemma new_observe (width height : F) (g1 g2 v1 v2 : Gen F) :
  same_draws 30 g1 g2 -> same_draws 30 v1 v2 ->
  observe (new width height g1 v1).1 = observe (new width height g2 v2).1.
Proof.
  intros Hg Hv. unfold observe, new, initializeObjects.
  cbn -[Nat.add].
  use_draws Hg 30%nat. use_draws Hv 30%nat. reflexivity.
Qed.

(** C2, as the program has it: the constructor takes a width and a
    height and no seed; start positions are drawn from the simulator's
    clock-seeded generator and velocities from the generator shared by
    all objects of the process.  Two runs with the same width and height
    whose generators return the same thirty values each show the same
    objects, dimensions and generation count after any number of
    generations. *)
Theorem runs_determined_by_draws (width height : F) (g1 g2 v1 v2 : Gen F)
    (n : nat) :
  same_draws 30 g1 g2 -> same_draws 30 v1 v2 ->
  observe (ticks n (new width height g1 v1).1)
  = observe (ticks n (new width height g2 v2).1).
Proof. intros Hg Hv. by apply ticks_observe, new_observe. Qed.
End Runs.

Section RunScenarios.
Import RPSSimulator Scenario.

(** C2, as stated, fails: two simulators built with the same width and
    height from the same seeded generator differ from the first
    generation on when the shared velocity generator is in another
    state. *)
Lemma same_seed_different_runs :
  let run1 := (new (f32 100) (f32 100) grid_gen (constant_gen (f32 1))).1 in
  let run2 := (new (f32 100) (f32 100) grid_gen (constant_gen (f32 (-1)))).1 in
  boxWidth run1 = boxWidth run2 /\ boxHeight run1 = boxHeight run2 /\
  map (fun o => (GameObject.x o, GameObject.y o)) (objects run1)
  = map (fun o => (GameObject.x o, GameObject.y o)) (objects run2) /\
  objects run1 <> objects run2 /\
  observe (ticks 1 run1) <> observe (ticks 1 run2).
Proof.
  cbv zeta. split; [by vm_compute|]. split; [by vm_compute|].
  split; [by vm_compute|]. split.
  - intros Heq. apply (f_equal (fun l => GameObject.vx <$> head l)) in Heq.
    vm_compute in Heq. discriminate.
  - intros Heq.
    apply (f_equal (fun ob => GameObject.x <$> head ob.1.1.1)) in Heq.
    vm_compute in Heq. discriminate.
Qed.

Lemma runs_determined_by_draws_witness :
  same_draws 30 grid_gen grid_gen_then_zero /\
  same_draws 30 (constant_gen (f32 1)) ones_then_twos /\
  observe (ticks 4 (new (f32 100) (f32 100) grid_gen
                        (constant_gen (f32 1))).1)
  = observe (ticks 4 (new (f32 100) (f32 100) grid_gen_then_zero
                          ones_then_twos).1).
Proof.
  assert (Hg : same_draws 30 grid_gen grid_gen_then_zero).
  { intros k Hk. cbn [next used grid_gen grid_gen_then_zero].
    rewrite Nat.add_0_r. by destruct (Nat.ltb_spec k 30); [|lia]. }
  assert (Hv : same_draws 30 (constant_gen (f32 1)) ones_then_twos).
  { intros k Hk. cbn [next used constant_gen ones_then_twos].
    rewrite Nat.add_0_r. by destruct (Nat.ltb_spec k 30); [|lia]. }
  split; [exact Hg|]. split; [exact Hv|].
  exact (runs_determined_by_draws (f32 100) (f32 100) _ _ _ _ 4 Hg Hv).
Defined.
End RunScenarios.


(** * Further properties: kinds *)

Section MoreDominance.
Import GameRules.

(** X1: the winner of two kinds is one of the two: no third kind comes
    out of a collision. *)
Theorem determineWinner_no_third_kind (a b : ObjectType) :
  determineWinner a b = a \/ determineWinner a b = b.
Proof. destruct a, b; auto. Qed.

(** X2: the dominance is cyclic: every kind beats exactly one other kind
    and loses to exactly one other kind. *)
Theorem determineWinner_cyclic (a : ObjectType) :
  (exists ! b, b <> a /\ determineWinner a b = a) /\
  (exists ! c, c <> a /\ determineWinner a c = c).
Proof.
  destruct a; split.
  - exists SCISSORS. split; [done|]. by intros [] [? ?].
  - exists PAPER. split; [done|]. by intros [] [? ?].
  - exists ROCK. split; [done|]. by intros [] [? ?].
  - exists SCISSORS. split; [done|]. by intros [] [? ?].
  - exists PAPER. split; [done|]. by intros [] [? ?].
  - exists ROCK. split; [done|]. by intros [] [? ?].
Qed.

(** X3: the dominance is not associative: when three different kinds
    meet, the kind that is left depends on which pair is resolved
    first. *)
Theorem determineWinner_not_associative (a b c : ObjectType) :
  a <> b -> b <> c -> a <> c ->
  determineWinner (determineWinner a b) c
  <> determineWinner a (determineWinner b c).
Proof. destruct a, b, c; done. Qed.

Lemma determineWinner_not_associative_witness :
  ROCK <> PAPER /\ PAPER <> SCISSORS /\ ROCK <> SCISSORS /\
  determineWinner (determineWinner ROCK PAPER) SCISSORS
  <> determineWinner ROCK (determineWinner PAPER SCISSORS).
Proof.
  split; [done|]. split; [done|]. split; [done|].
  apply determineWinner_not_associative; done.
Defined.
End MoreDominance.

Section Names.
(** X4: the three kinds have different names and different symbols, the
    symbol of a kind is the first letter of its name, and no symbol is the
    dot that marks an empty cell. *)
Theorem typeToSymbol_tells_kinds_apart :
  (forall a b, typeToSymbol a = typeToSymbol b <-> a = b) /\
  (forall a b, typeToString a = typeToString b <-> a = b) /\
  (forall a, String.get 0 (typeToString a) = Some (typeToSymbol a)) /\
  (forall a, typeToSymbol a <> "."%char).
Proof.
  split; [|split; [|split]].
  - intros [] []; split; done.
  - intros [] []; split; done.
  - by intros [].
  - by intros [].
Qed.
End Names.

Section MorePopulation.
Context {F : Type} `{FloatOps F}.
Import RPSSimulator.

Lemma collide_without (k : ObjectType) (i j : nat) (l : list (GameObject.t F)) :
  Forall (fun o => GameObject.type o <> k) l ->
  Forall (fun o => GameObject.type o <> k) (collide i j l).
Proof.
  unfold collide. intros Hl.
  destruct (l !! i) as [a|] eqn:Ha, (l !! j) as [b|] eqn:Hb; try done.
  destruct (GameObject.collidesWith a b); [|done].
  pose proof (resolveCollision_type a b) as [H1 H2].
  destruct (GameRules.resolveCollision a b) as [a' b']; simpl in *.
  rewrite Forall_lookup in Hl.
  pose proof (Hl _ _ Ha). pose proof (Hl _ _ Hb).
  assert (GameRules.determineWinner (GameObject.type a) (GameObject.type b)
          <> k)
    by (destruct (determineWinner_closed (GameObject.type a)
                    (GameObject.type b)); congruence).
  apply Forall_insert; [apply Forall_insert|]; try congruence.
  by apply Forall_lookup.
Qed.

Lemma update_without (k : ObjectType) (s : t F) :
  Forall (fun o => GameObject.type o <> k) (objects s) ->
  Forall (fun o => GameObject.type o <> k) (objects (update s)).
Proof.
  intros Hs. unfold update; simpl.
  apply (collisions_inv (Forall (fun o => GameObject.type o <> k)));
    [intros; by apply collide_without|].
  unfold motion. apply Forall_map.
  eapply Forall_impl; [exact Hs|]. intros o Ho; simpl.
  by rewrite move_type.
Qed.

(** X5: a kind that has died out stays extinct: if no object has kind [k],
    none has after any number of generations. *)
Theorem extinct_kind_stays_extinct (k : ObjectType) (s : t F) (n : nat) :
  tally k (objects s) = 0 -> tally k (objects (ticks n s)) = 0.
Proof.
  rewrite !tally_zero. intros Hs. induction n as [|n IH]; [done|].
  change (ticks (S n) s) with (update (ticks n s)). by apply update_without.
Qed.

(** X6: the game is still open exactly when two objects of different
    kinds exist. *)
Theorem isGameOver_false_iff (s : t F) :
  isGameOver s = false <->
  exists o1 o2, o1 ∈ objects s /\ o2 ∈ objects s /\
                GameObject.type o1 <> GameObject.type o2.
Proof.
  split.
  - intros Hopen. destruct (objects s) as [|o l] eqn:Hl.
    { assert (isGameOver s = true)
        by (apply isGameOver_all_of; exists ROCK; rewrite Hl; constructor).
      congruence. }
    destruct (decide (Forall (fun o' => GameObject.type o' = GameObject.type o)
                        (o :: l))) as [Hall|Hnot].
    { assert (isGameOver s = true)
        by (apply isGameOver_all_of; exists (GameObject.type o);
            by rewrite Hl).
      congruence. }
    apply not_Forall_Exists in Hnot; [|intros ?; apply _].
    apply Exists_exists in Hnot as (o2 & Ho2 & Hne).
    exists o2, o. split; [done|]. split; [apply list_elem_of_here|done].
  - intros (o1 & o2 & H1 & H2 & Hne).
    destruct (isGameOver s) eqn:Hover; [|done].
    apply isGameOver_all_of in Hover as [k Hk].
    unfold all_of in Hk. rewrite Forall_forall in Hk.
    rewrite (Hk _ H1), (Hk _ H2) in Hne. done.
Qed.

Lemma game_over_all_of_getWinner (s : t F) :
  isGameOver s = true -> all_of (getWinner s) (objects s).
Proof.
  unfold all_of.
  intros [k Hk]%isGameOver_all_of.
  rewrite getWinner_first_present.
  destruct (objects s) as [|o l] eqn:Hl; [constructor|].
  assert (Hpos : 0 < tally k (o :: l)).
  { apply Forall_cons in Hk as [Ho _]. simpl.
    pose proof (tally_nonneg k l). case_decide; [lia|done]. }
  assert (Hothers : forall k', k' <> k -> tally k' (o :: l) = 0)
    by (by apply tally_all).
  replace (first_present (o :: l)) with k; [done|].
  unfold first_present. destruct k;
    repeat (case_decide; try done);
    try (rewrite Hothers in * by done; lia).
Qed.

(** X7: when the game is over, [getWinner] names the kind of every
    object. *)
Theorem getWinner_names_every_object (s : t F) :
  isGameOver s = true ->
  Forall (fun o => GameObject.type o = getWinner s) (objects s).
Proof. apply game_over_all_of_getWinner. Qed.

(** X8: an arena without objects: the game counts as over, the winner
    defaults to Rock, all counts are zero, and a generation leaves the
    arena empty and only advances the counter, by one as long as the
    counter is an [int] below [INT_MAX] (beyond, [generation++]
    overflows). *)
Theorem empty_arena (s : t F) :
  objects s = [] ->
  isGameOver s = true /\ getWinner s = ROCK /\
  getTypeCounts s = (0, 0, 0) /\
  objects (update s) = [] /\
  boxWidth (update s) = boxWidth s /\ boxHeight (update s) = boxHeight s /\
  (INT_MIN <= generation s < INT_MAX ->
   generation (update s) = generation s + 1 /\
   INT_MIN <= generation (update s) <= INT_MAX).
Proof.
  intros Hs. unfold isGameOver, getWinner, getTypeCounts, update, motion.
  rewrite Hs. cbn. repeat split; try done; lia.
Qed.
End MorePopulation.

Section MorePopulationScenarios.
Import RPSSimulator Scenario.

Lemma extinct_kind_stays_extinct_witness :
  tally PAPER (objects only_rocks) = 0 /\
  tally PAPER (objects (ticks 3 only_rocks)) = 0.
Proof.
  split; [reflexivity|].
  apply (extinct_kind_stays_extinct PAPER only_rocks 3). reflexivity.
Defined.

Lemma getWinner_names_every_object_witness :
  isGameOver only_rocks = true /\
  Forall (fun o => GameObject.type o = getWinner only_rocks)
         (objects only_rocks).
Proof.
  split; [reflexivity|].
  apply (getWinner_names_every_object only_rocks). reflexivity.
Defined.

Lemma empty_arena_witness :
  objects (arena []) = [] /\
  INT_MIN <= generation (arena []) < INT_MAX /\
  isGameOver (arena []) = true /\ getWinner (arena []) = ROCK /\
  getTypeCounts (arena []) = (0, 0, 0) /\
  objects (update (arena [])) = [] /\
  generation (update (arena [])) = generation (arena []) + 1.
Proof.
  assert (Hint : INT_MIN <= generation (arena []) < INT_MAX)
    by (vm_compute; split; [discriminate|reflexivity]).
  split; [reflexivity|]. split; [exact Hint|].
  destruct (empty_arena (arena []) eq_refl)
    as (Hover & Hwin & Hcounts & Hobjs & _ & _ & Hgen).
  repeat (split; [assumption|]). exact (proj1 (Hgen Hint)).
Defined.
End MorePopulationScenarios.


(** * Further properties: the engine *)

Section Initialization.
Context {F : Type} `{FloatOps F} {order : EvaluationOrder}.
Import RPSSimulator.

(** X9: [initializeObjects] discards whatever objects the simulator held
    and creates fifteen: object [i] has the kind Rock, Paper or Scissors
    according to [i mod 3]; its start position is made of draws [2i] and
    [2i+1] of the simulator's generator, the earlier one for [x] if the
    build evaluates [xDist(rng)] before [yDist(rng)] and for [y] if it
    evaluates it after; its velocity is draws [2i] and [2i+1] of the
    velocity generator, [vx] first; its radius is 5.  Each generator is
    left thirty draws further; dimensions and generation counter are
    kept.  There are five objects of each kind, so the game is not
    over. *)
Theorem initializeObjects_layout (s : t F) (vel : Gen F) :
  let r := initializeObjects s vel in
  objects r.1 = map (nth_object (rng s) vel) (seq 0 15) /\
  rng r.1 = advanced 30 (rng s) /\ r.2 = advanced 30 vel /\
  boxWidth r.1 = boxWidth s /\ boxHeight r.1 = boxHeight s /\
  generation r.1 = generation s /\
  getTypeCounts r.1 = (5, 5, 5) /\ isGameOver r.1 = false.
Proof. repeat split; reflexivity. Qed.
End Initialization.

(** ** What a generation keeps of each object *)

Section Pointwise.
Context {F : Type} `{FloatOps F}.
Import RPSSimulator.

Variable R : GameObject.t F -> GameObject.t F -> Prop.
Hypothesis R_refl : forall o, R o o.
Hypothesis R_trans : forall a b c, R a b -> R b c -> R a c.
Hypothesis R_move : forall width height o, R o (move width height o).
Hypothesis R_resolve : forall a b,
  R a (GameRules.resolveCollision a b).1 /\
  R b (GameRules.resolveCollision a b).2.

Lemma collide_pointwise (i j : nat) (l0 l : list (GameObject.t F)) :
  Forall2 R l0 l -> Forall2 R l0 (collide i j l).
Proof.
  intros Hl. unfold collide.
  destruct (l !! i) as [a|] eqn:Ha, (l !! j) as [b|] eqn:Hb; try done.
  destruct (GameObject.collidesWith a b); [|done].
  pose proof (R_resolve a b) as [Hra Hrb].
  destruct (GameRules.resolveCollision a b) as [a' b']; simpl in *.
  destruct (Forall2_lookup_r _ _ _ _ _ Hl Ha) as (a0 & Ha0 & Haa).
  destruct (Forall2_lookup_r _ _ _ _ _ Hl Hb) as (b0 & Hb0 & Hbb).
  rewrite <- (list_insert_id l0 j b0), <- (list_insert_id l0 i a0) by done.
  apply Forall2_insert; [apply Forall2_insert|]; eauto.
Qed.

Lemma update_pointwise (s : t F) :
  Forall2 R (objects s) (objects (update s)).
Proof.
  unfold update. cbn [objects].
  apply (collisions_inv (Forall2 R (objects s)));
    [intros; by apply collide_pointwise|].
  unfold motion. apply Forall2_fmap_r, Forall_Forall2_diag, Forall_forall.
  intros o _. apply R_move.
Qed.

Lemma ticks_pointwise (n : nat) (s : t F) :
  Forall2 R (objects s) (objects (ticks n s)).
Proof.
  induction n as [|n IH].
  - apply Forall_Forall2_diag, Forall_forall. intros o _. apply R_refl.
  - change (ticks (S n) s) with (update (ticks n s)).
    pose proof (update_pointwise (ticks n s)) as Hu.
    apply Forall2_same_length_lookup. split.
    + by rewrite (Forall2_length _ _ _ IH), (Forall2_length _ _ _ Hu).
    + intros i o o'' Ho Ho''.
      destruct (Forall2_lookup_l _ _ _ _ _ IH Ho) as (o' & Ho' & ?).
      pose proof (Forall2_lookup_lr _ _ _ _ _ _ Hu Ho' Ho''). eauto.
Qed.
End Pointwise.

Section Conserved.
Import GameObject RPSSimulator.

Lemma SFabs_SFopp (v : spec_float) : SFabs (SFopp v) = SFabs v.
Proof. by destruct v. Qed.

Lemma ticks_fields {F : Type} `{FloatOps F} (n : nat) (s : t F) :
  boxWidth (ticks n s) = boxWidth s /\ boxHeight (ticks n s) = boxHeight s /\
  rng (ticks n s) = rng s /\
  generation (ticks n s) = generation s + Z.of_nat n.
Proof.
  induction n as [|n (Hw & Hh & Hr & Hg)]; [repeat split; simpl; lia|].
  change (ticks (S n) s) with (update (ticks n s)).
  unfold update. cbn [boxWidth boxHeight rng generation].
  repeat split; try done. lia.
Qed.

(** X10: across any number of generations, in binary32, the arena keeps
    its objects in their order, each with its radius and with its speed
    along each axis (a velocity component only ever changes sign); the
    dimensions and the generator are untouched, and the generation
    counter has advanced by the number of generations, as long as that
    stays within the range of [int]. *)
Theorem radius_and_speed_conserved (s : t binary32) (n : nat) :
  Forall2 same_radius_and_speed (objects s) (objects (ticks n s)) /\
  boxWidth (ticks n s) = boxWidth s /\ boxHeight (ticks n s) = boxHeight s /\
  rng (ticks n s) = rng s /\
  (INT_MIN <= generation s -> generation s + Z.of_nat n <= INT_MAX ->
   generation (ticks n s) = generation s + Z.of_nat n).
Proof.
  split; [|pose proof (ticks_fields n s) as (? & ? & ? & ?); done].
  apply ticks_pointwise; unfold same_radius_and_speed.
  - done.
  - intros a b c (-> & -> & ->) (-> & -> & ->). done.
  - intros width height o. unfold move.
    rewrite handleBoundaries_radius, handleBoundaries_vx, handleBoundaries_vy.
    cbn [update radius vx vy fneg binary32_ops].
    split; [done|].
    split; [destruct (hits_x _ _)|destruct (hits_y _ _)];
      by rewrite ?SFabs_SFopp.
  - intros a b. unfold GameRules.resolveCollision.
    by destruct (flt _ _).
Qed.

(** X11: a generation in which no two objects overlap once moved is pure
    motion: the objects are those of the motion phase, each moved by its
    velocity and reflected on its own. *)
Theorem update_without_contact {F : Type} `{FloatOps F} (s : t F) :
  no_overlap (motion s) = true ->
  objects (update s)
  = map (fun o => handleBoundaries (boxWidth s) (boxHeight s)
                    (GameObject.update o))
        (objects s).
Proof. intros Hno. unfold update. cbn [objects]. by rewrite collisions_no_overlap. Qed.

(** The head-on pair moves from 40 and 60 to 41 and 59: the one pair of
    the arena is tested and does not overlap. *)
Lemma update_without_contact_witness :
  no_overlap (motion Scenario.head_on) = true /\
  objects (update Scenario.head_on)
  = map (fun o => handleBoundaries (boxWidth Scenario.head_on)
                    (boxHeight Scenario.head_on) (GameObject.update o))
        (objects Scenario.head_on).
Proof.
  split; [reflexivity|].
  apply (update_without_contact Scenario.head_on). reflexivity.
Defined.

(** Six generations of the head-on pair, which collides in the sixth. *)
Lemma radius_and_speed_conserved_witness :
  INT_MIN <= generation Scenario.head_on /\
  generation Scenario.head_on + Z.of_nat 6 <= INT_MAX /\
  Forall2 same_radius_and_speed
    (objects Scenario.head_on) (objects (ticks 6 Scenario.head_on)) /\
  generation (ticks 6 Scenario.head_on)
  = generation Scenario.head_on + Z.of_nat 6.
Proof.
  assert (Hlo : INT_MIN <= generation Scenario.head_on)
    by (vm_compute; discriminate).
  assert (Hhi : generation Scenario.head_on + Z.of_nat 6 <= INT_MAX)
    by (vm_compute; discriminate).
  split; [exact Hlo|]. split; [exact Hhi|].
  destruct (radius_and_speed_conserved Scenario.head_on 6)
    as (Hobjs & _ & _ & _ & Hgen).
  split; [exact Hobjs|exact (Hgen Hlo Hhi)].
Defined.
End Conserved.


(** * Further properties: overlap and separation *)

Section Symmetry.
Import GameObject.

Lemma binary_round_aux_opp (prec emax : Z) (s : bool) (m e : Z) (l : location) :
  binary_round_aux prec emax (negb s) m e l
  = SFopp (binary_round_aux prec emax s m e l).
Proof.
  unfold binary_round_aux.
  destruct (shr_fexp prec emax m e l) as [mrs' e'].
  destruct (shr_fexp prec emax _ e' loc_Exact) as [mrs'' e''].
  destruct (shr_m mrs''); [done| |done].
  by destruct (e'' <=? emax - prec).
Qed.

Lemma binary_round_opp (prec emax : Z) (s : bool) (m : positive) (e : Z) :
  binary_round prec emax (negb s) m e = SFopp (binary_round prec emax s m e).
Proof.
  unfold binary_round. destruct (shl_align m e _). apply binary_round_aux_opp.
Qed.

Lemma SFopp_involutive (v : spec_float) : SFopp (SFopp v) = v.
Proof. by destruct v as [[]|[]| |[] m e]. Qed.

Lemma binary_normalize_opp (prec emax n e : Z) :
  n <> 0 ->
  binary_normalize prec emax (- n) e false
  = SFopp (binary_normalize prec emax n e false).
Proof.
  destruct n as [|p|p]; [done| |]; intros _; cbn [Z.opp binary_normalize].
  - apply (binary_round_opp prec emax false).
  - by rewrite (binary_round_opp prec emax false), SFopp_involutive.
Qed.

(** Swapping the operands of a subtraction negates the difference, or
    leaves a zero. *)
Lemma SFsub_swap (prec emax : Z) (a b : spec_float) :
  SFsub prec emax b a = SFopp (SFsub prec emax a b) \/
  (exists s s', SFsub prec emax a b = S754_zero s /\
                SFsub prec emax b a = S754_zero s').
Proof.
  destruct a as [sa|sa| |sa ma ea], b as [sb|sb| |sb mb eb];
    try (left; reflexivity);
    try (left; destruct sa; reflexivity);
    try (left; destruct sa, sb; reflexivity).
  - right. destruct sa, sb; eauto.
  - cbn [SFsub]. rewrite (Z.min_comm eb ea).
    set (X := cond_Zopp sa _). set (Y := cond_Zopp sb _).
    replace (Y - X) with (- (X - Y)) by lia.
    destruct (Z.eq_dec (X - Y) 0) as [->|Hne]; [right; eauto|].
    left. by apply binary_normalize_opp.
Qed.

Lemma SFmul_opp_opp (prec emax : Z) (d : spec_float) :
  SFmul prec emax (SFopp d) (SFopp d) = SFmul prec emax d d.
Proof. destruct d as [[]|[]| |[] m e]; reflexivity. Qed.

Lemma SFsub_swap_square (prec emax : Z) (a b : spec_float) :
  SFmul prec emax (SFsub prec emax b a) (SFsub prec emax b a)
  = SFmul prec emax (SFsub prec emax a b) (SFsub prec emax a b).
Proof.
  destruct (SFsub_swap prec emax a b) as [->|(s & s' & -> & ->)].
  - apply SFmul_opp_opp.
  - by destruct s, s'.
Qed.

Lemma SFadd_comm (prec emax : Z) (a b : spec_float) :
  SFadd prec emax a b = SFadd prec emax b a.
Proof.
  destruct a as [sa|sa| |sa ma ea], b as [sb|sb| |sb mb eb];
    try reflexivity; try (destruct sa, sb; reflexivity).
  cbn [SFadd]. by rewrite (Z.min_comm eb ea), Z.add_comm.
Qed.

(** X12: the overlap test does not depend on the order of the two
    objects, in binary32 (for all values, NaN and infinities included)
    and in exact arithmetic; [update] tests each pair once. *)
Theorem collidesWith_symmetric :
  (forall a b : t binary32, collidesWith a b = collidesWith b a) /\
  (forall a b : t R, collidesWith a b = collidesWith b a).
Proof.
  split; intros a b; unfold collidesWith.
  - cbn [fadd fsub fmul fsqrt flt binary32_ops].
    by rewrite (SFsub_swap_square _ _ (x a) (x b)),
      (SFsub_swap_square _ _ (y a) (y b)), (SFadd_comm _ _ (radius a)).
  - cbn [fadd fsub fmul fsqrt flt real_ops].
    replace ((x b - x a) * (x b - x a) + (y b - y a) * (y b - y a))%R
      with ((x a - x b) * (x a - x b) + (y a - y b) * (y a - y b))%R by ring.
    by rewrite (Rplus_comm (radius b)).
Qed.
End Symmetry.

Section Colocated.
Import GameObject GameRules.

Lemma SFsub_diag (prec emax : Z) (v : spec_float) :
  SFsub prec emax v v = S754_zero false \/ SFsub prec emax v v = S754_nan.
Proof.
  destruct v as [[]|[]| |s m e]; auto.
  left. cbn [SFsub]. by rewrite Z.sub_diag.
Qed.

Lemma distance_colocated (a b : t binary32) :
  x a = x b -> y a = y b ->
  flt (of_int 0) (distance a b) = false.
Proof.
  unfold distance. intros -> ->.
  cbn [fadd fsub fmul fsqrt flt of_int binary32_ops].
  by destruct (SFsub_diag B32.prec B32.emax (x b)) as [->| ->],
    (SFsub_diag B32.prec B32.emax (y b)) as [->| ->].
Qed.

(** X13: two objects at the same place are not pushed apart: in binary32,
    whatever the common coordinates are, [resolveCollision] gives both the
    winning kind and leaves positions, velocities and radii as they are
    (no division by a zero distance takes place). *)
Theorem resolveCollision_colocated (a b : t binary32) :
  x a = x b -> y a = y b ->
  resolveCollision a b
  = (Make (determineWinner (type a) (type b))
          (x a) (y a) (vx a) (vy a) (radius a),
     Make (determineWinner (type a) (type b))
          (x b) (y b) (vx b) (vy b) (radius b)).
Proof.
  intros Hx Hy. pose proof (distance_colocated a b Hx Hy) as Hd.
  unfold resolveCollision. unfold distance in Hd. by rewrite Hd.
Qed.

Lemma resolveCollision_colocated_witness :
  let a := Scenario.agent ROCK (Scenario.f32 50) (Scenario.f32 50)
             (Scenario.f32 1) (Scenario.f32 0) in
  let b := Scenario.agent SCISSORS (Scenario.f32 50) (Scenario.f32 50)
             (Scenario.f32 (-1)) (Scenario.f32 0) in
  x a = x b /\ y a = y b /\
  resolveCollision a b
  = (Make (determineWinner (type a) (type b))
          (x a) (y a) (vx a) (vy a) (radius a),
     Make (determineWinner (type a) (type b))
          (x b) (y b) (vx b) (vy b) (radius b)).
Proof.
  intros a b. split; [reflexivity|]. split; [reflexivity|].
  apply (resolveCollision_colocated a b); reflexivity.
Defined.
End Colocated.


(** * Further properties: the grid *)

Section Grid.
Context {F : Type} `{FloatOps F} `{FloatToInt F}.
Import RPSSimulator Display.

Lemma find_object_first_in_cell (width height : F) (x y : Z)
    (objs : list (GameObject.t F)) (r : option ObjectType) :
  find_object width height x y objs = Some r ->
  r = first_in_cell width height x y objs.
Proof.
  unfold first_in_cell, cell_of.
  induction objs as [|o objs IH]; cbn [find_object find];
    [by intros [= <-]|].
  destruct (to_int _) as [objX|]; [|done].
  destruct (to_int _) as [objY|]; [|done].
  destruct ((objX =? x) && (objY =? y)) eqn:E.
  - apply andb_true_iff in E as [->%Z.eqb_eq ->%Z.eqb_eq].
    rewrite bool_decide_eq_true_2 by done. by intros [= <-].
  - rewrite bool_decide_eq_false_2; [done|].
    intros [= -> ->]. by rewrite !Z.eqb_refl in E.
Qed.

Lemma find_object_defined (width height : F) (x y : Z)
    (objs : list (GameObject.t F)) :
  Forall (fun o => is_Some (cell_of width height o)) objs ->
  is_Some (find_object width height x y objs).
Proof.
  unfold cell_of. induction 1 as [|o objs [c Hc] _ IH]; cbn [find_object];
    [done|].
  destruct (to_int _) as [objX|]; [|done].
  destruct (to_int _) as [objY|]; [|done].
  by destruct (_ && _).
Qed.

Lemma cell_first_in_cell (s : t F) (x y : Z) (c : chunk F) :
  cell s x y = Some c ->
  c = cell_chunk (first_in_cell (boxWidth s) (boxHeight s) x y (objects s)).
Proof.
  unfold cell.
  destruct (find_object _ _ x y _) as [r|] eqn:E; [|done].
  apply find_object_first_in_cell in E as <-.
  destruct r; by intros [= <-].
Qed.

Lemma row_loop_cells (s : t F) (y x : Z) (todo : nat) (out out' : list (chunk F)) :
  row_loop s y x todo out = Some out' ->
  out' = out ++ map (fun x' => cell_chunk
                                 (first_in_cell (boxWidth s) (boxHeight s)
                                    x' y (objects s)))
                    (seqZ x (Z.of_nat todo)).
Proof.
  revert x out. induction todo as [|todo IH]; intros x out; cbn [row_loop].
  - intros [= <-]. by rewrite seqZ_nil, app_nil_r.
  - destruct (cell s x y) as [c|] eqn:Hc; [|done].
    intros ->%IH. apply cell_first_in_cell in Hc as ->.
    rewrite (seqZ_cons x) by lia.
    replace (Z.pred (Z.of_nat (S todo))) with (Z.of_nat todo) by lia.
    by rewrite <- app_assoc.
Qed.

Lemma grid_loop_rows (s : t F) (y : Z) (todo : nat)
    (rows rows' : list (list (chunk F))) :
  grid_loop s y todo rows = Some rows' ->
  rows' = rows ++
    map (fun y' =>
           map (fun x' => cell_chunk
                            (first_in_cell (boxWidth s) (boxHeight s)
                               x' y' (objects s)))
               (seqZ 0 40)
           ++ [Str nl])
        (seqZ y (Z.of_nat todo)).
Proof.
  revert y rows. induction todo as [|todo IH]; intros y rows; cbn [grid_loop].
  - intros [= <-]. by rewrite (seqZ_nil y), app_nil_r.
  - unfold row at 1.
    destruct (row_loop s y 0 40 []) as [cells|] eqn:Hr; cbv beta iota;
      [|done].
    intros ->%IH. apply row_loop_cells in Hr as ->.
    rewrite (seqZ_cons y) by lia.
    replace (Z.pred (Z.of_nat (S todo))) with (Z.of_nat todo) by lia.
    by rewrite <- app_assoc.
Qed.

Lemma row_loop_defined (s : t F) (y x : Z) (todo : nat) (out : list (chunk F)) :
  drawable s -> is_Some (row_loop s y x todo out).
Proof.
  intros Hs. revert x out.
  induction todo as [|todo IH]; intros x out; cbn [row_loop]; [done|].
  unfold cell.
  destruct (find_object_defined (boxWidth s) (boxHeight s) x y _ Hs)
    as [[k|] ->]; apply IH.
Qed.

Lemma grid_loop_defined (s : t F) (y : Z) (todo : nat)
    (rows : list (list (chunk F))) :
  drawable s -> is_Some (grid_loop s y todo rows).
Proof.
  intros Hs. revert y rows.
  induction todo as [|todo IH]; intros y rows; cbn [grid_loop]; [done|].
  unfold row.
  destruct (row_loop_defined s y 0 40 [] Hs) as [cells ->]. cbv beta iota.
  apply IH.
Qed.

(** X14: when [displayState] is defined, the grid it prints is the
    picture of the arena: twenty lines of forty cells, each cell showing
    the symbol of the first object, in the order of the vector, that falls
    into it, or a dot when none does, and a newline after each line; the
    header goes before. *)
Theorem displayState_shows_first_object (s : t F) (out : list (chunk F)) :
  displayState s = Some out ->
  grid s = Some (picture s) /\ out = header s ++ concat (picture s).
Proof.
  unfold displayState, grid.
  destruct (grid_loop s 0 20 []) as [rows|] eqn:Hg; [|done].
  intros [= <-]. apply grid_loop_rows in Hg as ->. done.
Qed.

Lemma grid_drawable (s : t F) : drawable s -> grid s = Some (picture s).
Proof.
  intros Hs. destruct (grid_loop_defined s 0 20 [] Hs) as [rows Hg].
  unfold grid. rewrite Hg. apply grid_loop_rows in Hg as ->. done.
Qed.

(** X15: [displayState] is defined as soon as the two conversions to
    [int] are defined for every object of the arena, whether the object
    falls into the grid or not; in particular for an arena without
    objects. *)
Theorem displayState_defined (s : t F) :
  drawable s -> displayState s = Some (header s ++ concat (picture s)).
Proof. intros Hs. unfold displayState. by rewrite grid_drawable. Qed.

Lemma first_in_cell_object (width height : F) (x y : Z)
    (objs : list (GameObject.t F)) :
  is_Some (first_in_cell width height x y objs) ->
  (x, y) ∈ omap (cell_of width height) objs.
Proof.
  unfold first_in_cell. intros [k Hk].
  destruct (find _ objs) as [o|] eqn:Ho; [|done].
  apply find_some in Ho as [Hin Hc%bool_decide_eq_true_1].
  apply list_elem_of_omap. exists o. by rewrite list_elem_of_In.
Qed.

Lemma NoDup_all_cells : NoDup all_cells.
Proof.
  unfold all_cells. apply NoDup_bind.
  - intros y1 y2 c _ _ (x1 & -> & _)%list_elem_of_fmap
      (x2 & [= _ ->] & _)%list_elem_of_fmap. done.
  - intros y _. apply NoDup_fmap_2; [|apply NoDup_seqZ]. by intros x1 x2 [= ->].
  - apply NoDup_seqZ.
Qed.

Lemma length_omap_le {A B} (f : A -> option B) (l : list A) :
  (length (omap f l) <= length l)%nat.
Proof. induction l as [|a l IH]; cbn; [lia|]. destruct (f a); cbn; lia. Qed.

(** The symbols of one line are the occupied cells of that line. *)
Lemma symbols_of_line (fic : Z -> Z -> option ObjectType) (y : Z)
    (xs : list Z) :
  length (filter (fun c : chunk F => is_symbol c = true)
            (map (fun x => cell_chunk (fic x y)) xs ++ [Str nl]))
  = length (filter (fun c : Z * Z => is_Some (fic c.1 c.2))
              ((fun x => (x, y)) <$> xs)).
Proof.
  rewrite filter_app, length_app.
  rewrite (filter_cons_False _ (Str nl)), filter_nil by done.
  cbn [length]. rewrite Nat.add_0_r.
  induction xs as [|x xs IH]; [done|]. cbn [map fmap list_fmap].
  destruct (fic x y) as [k|] eqn:Hk.
  - rewrite !filter_cons_True; [|by cbn; rewrite Hk|done].
    cbn [length]. by rewrite IH.
  - rewrite !filter_cons_False; [done| |done].
    cbn. rewrite Hk. by intros [? ?].
Qed.

Lemma symbols_of_picture (fic : Z -> Z -> option ObjectType)
    (ys xs : list Z) :
  length (filter (fun c : chunk F => is_symbol c = true)
            (concat (map (fun y => map (fun x => cell_chunk (fic x y)) xs
                                   ++ [Str nl]) ys)))
  = length (filter (fun c : Z * Z => is_Some (fic c.1 c.2))
              (ys ≫= (fun y => (fun x => (x, y)) <$> xs))).
Proof.
  induction ys as [|y ys IH]; [done|].
  cbn [map concat mbind list_bind].
  rewrite (filter_app _ (map _ xs ++ [Str nl])), length_app, symbols_of_line.
  by rewrite filter_app, length_app, IH.
Qed.

(** X16: the grid never shows more symbols than the arena has objects
    (it shows fewer when objects share a cell or fall outside the
    grid). *)
Theorem displayState_symbols_bounded (s : t F) (rows : list (list (chunk F))) :
  grid s = Some rows ->
  (length (filter (fun c : chunk F => is_symbol c = true) (concat rows))
   <= length (objects s))%nat.
Proof.
  intros Hg. unfold grid in Hg. apply grid_loop_rows in Hg as ->.
  rewrite app_nil_l.
  rewrite (symbols_of_picture
             (fun x y => first_in_cell (boxWidth s) (boxHeight s) x y
                           (objects s))).
  fold all_cells.
  etrans; [|apply (length_omap_le (cell_of (boxWidth s) (boxHeight s)))].
  apply submseteq_length, NoDup_submseteq.
  - apply NoDup_filter, NoDup_all_cells.
  - intros [x y] [Hc _]%list_elem_of_filter. by apply first_in_cell_object.
Qed.
End Grid.

Section GridScenarios.
Import RPSSimulator Display Scenario Runs.

Lemma head_on_display_eq : displayState head_on = Some head_on_display.
Proof. vm_compute. reflexivity. Qed.

Lemma displayState_shows_first_object_witness :
  displayState head_on = Some head_on_display /\
  grid head_on = Some (picture head_on) /\
  head_on_display = header head_on ++ concat (picture head_on).
Proof.
  split; [exact head_on_display_eq|].
  exact (displayState_shows_first_object head_on _ head_on_display_eq).
Defined.

Lemma drawable_by_evaluation (s : t binary32) :
  forallb (fun o => match cell_of (boxWidth s) (boxHeight s) o with
                    | Some _ => true
                    | None => false
                    end) (objects s) = true ->
  drawable s.
Proof.
  unfold drawable. intros Hall. apply Forall_forall. intros o Ho.
  rewrite forallb_forall in Hall. apply list_elem_of_In in Ho.
  specialize (Hall o Ho).
  destruct (cell_of (boxWidth s) (boxHeight s) o); [by eexists|done].
Qed.

Lemma drawable_head_on : drawable head_on.
Proof. apply drawable_by_evaluation. vm_compute. reflexivity. Qed.

Lemma displayState_defined_witness :
  drawable head_on /\
  displayState head_on = Some (header head_on ++ concat (picture head_on)).
Proof.
  split; [exact drawable_head_on|].
  exact (displayState_defined head_on drawable_head_on).
Defined.

Lemma grid_head_on_eq : grid head_on = Some (picture head_on).
Proof. exact (grid_drawable head_on drawable_head_on). Qed.

Lemma displayState_symbols_bounded_witness :
  grid head_on = Some (picture head_on) /\
  (length (filter (fun c : chunk binary32 => is_symbol c = true)
             (concat (picture head_on)))
   <= length (objects head_on))%nat.
Proof.
  split; [exact grid_head_on_eq|].
  exact (displayState_symbols_bounded head_on _ grid_head_on_eq).
Defined.
End GridScenarios.


(** * Further properties: the driver *)

Section DriverFacts.
Context {F : Type} `{FloatOps F} `{FloatToInt F} {order : EvaluationOrder}.
Import RPSSimulator Display Driver.

Lemma ticks_succ_update (n : nat) (s : t F) :
  ticks (S n) s = ticks n (update s).
Proof. unfold ticks. apply Nat.iter_succ_r. Qed.

Lemma filter_fmap_S (P : nat -> Prop) `{!forall n, Decision (P n)}
    (l : list nat) :
  filter P (S <$> l) = S <$> filter (fun n => P (S n)) l.
Proof.
  induction l as [|n l IH]; [done|]. cbn [fmap list_fmap].
  rewrite !filter_cons. destruct (decide (P (S n))); cbn; by rewrite IH.
Qed.

Lemma displayed_from_S (g k : nat) :
  displayed_from g (S k)
  = (if decide ((g mod 10 = 0)%nat) then [0%nat] else [])
    ++ (S <$> displayed_from (S g) k).
Proof.
  unfold displayed_from. cbn [seq]. rewrite <- fmap_S_seq, filter_cons.
  rewrite Nat.add_0_r, filter_fmap_S.
  assert (Heq : forall j, (g + S j = S g + j)%nat) by lia.
  rewrite (list_filter_iff _ (fun j => ((S g + j) mod 10 = 0)%nat))
    by (intros j; by rewrite Heq).
  by destruct (decide _).
Qed.

Lemma rem_10_of_nat (g : nat) :
  (Z.rem (Z.of_nat g) 10 =? 0) = bool_decide ((g mod 10 = 0)%nat).
Proof.
  rewrite Z.rem_mod_nonneg by lia.
  change 10 with (Z.of_nat 10). rewrite <- Nat2Z.inj_mod.
  destruct (decide ((g mod 10 = 0)%nat)) as [Hd|Hd].
  - rewrite bool_decide_eq_true_2 by done. apply Z.eqb_eq. lia.
  - rewrite bool_decide_eq_false_2 by done. apply Z.eqb_neq. lia.
Qed.

(** What the loop of [main] does, started with its counter at [g]. *)
Lemma main_loop_spec (todo g : nat) (s final : t F)
    (out out' : list (chunk F)) :
  main_loop todo (Z.of_nat g) s out = Some (final, out') ->
  exists (k : nat) (shown : list (list (chunk F))),
    (k <= todo)%nat /\ final = ticks k s /\
    (forall j, (j < k)%nat -> isGameOver (ticks j s) = false) /\
    ((k < todo)%nat -> isGameOver final = true) /\
    out' = out ++ concat shown /\
    Forall2 (fun j d => displayState (ticks (S j) s) = Some d)
            (displayed_from g k) shown.
Proof.
  revert g s out. induction todo as [|todo IH]; intros g s out; cbn [main_loop].
  { intros [= <- <-]. exists 0%nat, []. rewrite app_nil_r.
    repeat split; try done; try lia; try constructor. }
  destruct (isGameOver s) eqn:Hover.
  { intros [= <- <-]. exists 0%nat, []. rewrite app_nil_r.
    repeat split; try done; try lia; try constructor. }
  cbv zeta. rewrite rem_10_of_nat.
  replace (Z.of_nat g + 1) with (Z.of_nat (S g)) by lia.
  assert (Hfirst : forall k j, (j < S k)%nat ->
            (forall j', (j' < k)%nat -> isGameOver (ticks j' (update s)) = false) ->
            isGameOver (ticks j s) = false).
  { intros k [|j] Hj Hrest; [done|].
    rewrite ticks_succ_update. apply Hrest. lia. }
  destruct (decide ((g mod 10 = 0)%nat)) as [Hd|Hd].
  - rewrite bool_decide_eq_true_2 by done.
    destruct (displayState (update s)) as [d|] eqn:Hshow; [|done].
    intros (k & shown & Hk & -> & Hopen & Hstop & -> & Hsh)%IH.
    exists (S k), (d :: shown). rewrite displayed_from_S, decide_True by done.
    split; [lia|]. split; [by rewrite ticks_succ_update|].
    split; [eauto|]. split; [intros; apply Hstop; lia|].
    split; [cbn [concat]; by rewrite <- app_assoc|].
    constructor; [done|]. apply Forall2_fmap_l.
    eapply Forall2_impl; [exact Hsh|]. intros j d' Hj.
    change (displayState (ticks (S (S j)) s) = Some d').
    by rewrite (ticks_succ_update (S j)).
  - rewrite bool_decide_eq_false_2 by done.
    intros (k & shown & Hk & -> & Hopen & Hstop & -> & Hsh)%IH.
    exists (S k), shown. rewrite displayed_from_S, decide_False by done.
    split; [lia|]. split; [by rewrite ticks_succ_update|].
    split; [eauto|]. split; [intros; apply Hstop; lia|].
    split; [done|].
    cbn [app]. apply Forall2_fmap_l.
    eapply Forall2_impl; [exact Hsh|]. intros j d' Hj.
    change (displayState (ticks (S (S j)) s) = Some d').
    by rewrite (ticks_succ_update (S j)).
Qed.

Lemma ticks_generation (n : nat) (s : t F) :
  generation (ticks n s) = generation s + Z.of_nat n.
Proof. apply ticks_fields. Qed.

(** X17: the loop of [main] stops at the first state in which the game is
    over, or after [maxGenerations] updates if there is none before: it
    makes [k <= maxGenerations] updates, the game was open before each of
    them, and it is over at the end unless [k = maxGenerations].  The
    generation counter has advanced by [k]. *)
Theorem main_loop_stops_at_first_game_over (maxGenerations : nat)
    (s final : t F) (out : list (chunk F)) :
  main_loop maxGenerations 0 s [] = Some (final, out) ->
  exists k : nat,
    (k <= maxGenerations)%nat /\ final = ticks k s /\
    (forall j, (j < k)%nat -> isGameOver (ticks j s) = false) /\
    ((k < maxGenerations)%nat -> isGameOver final = true) /\
    generation final = generation s + Z.of_nat k.
Proof.
  intros (k & shown & Hk & -> & Hopen & Hstop & _)%(main_loop_spec _ 0).
  exists k. by rewrite ticks_generation.
Qed.

(** X18: the loop of [main] displays the state after the update number
    [j + 1] for every multiple of ten [j] below the number [k] of updates
    it makes, in that order, and nothing else: the states shown have
    generation counts 1, 11, 21, ... above the initial one. *)
Theorem main_loop_display_schedule (maxGenerations : nat)
    (s final : t F) (out : list (chunk F)) :
  main_loop maxGenerations 0 s [] = Some (final, out) ->
  exists (k : nat) (shown : list (list (chunk F))),
    final = ticks k s /\ out = concat shown /\
    Forall2 (fun j d => displayState (ticks (S j) s) = Some d /\
                        generation (ticks (S j) s)
                        = generation s + 10 * Z.of_nat (j / 10) + 1)
            (displayed k) shown.
Proof.
  intros (k & shown & Hk & -> & Hopen & Hstop & -> & Hsh)%(main_loop_spec _ 0).
  exists k, shown. split; [done|]. split; [done|].
  apply Forall2_same_length_lookup. split; [by eapply Forall2_length|].
  intros i j d Hj Hd. split.
  - exact (Forall2_lookup_lr _ _ _ _ _ _ Hsh Hj Hd).
  - apply list_elem_of_lookup_2, list_elem_of_filter in Hj as [Hmod _].
    rewrite ticks_generation.
    pose proof (Nat.div_mod_eq j 10). lia.
Qed.

(** X19: what [main] says at the end is true of the final state: it names
    a winner exactly when the game is over, and then every object has the
    named kind; it reports the generation cap exactly when the game is
    still open, and then [maxGenerations] updates were made and two
    objects of different kinds remain. *)
Theorem verdict_sound (maxGenerations : nat) (s final : t F)
    (out : list (chunk F)) :
  main_loop maxGenerations 0 s [] = Some (final, out) ->
  (verdict final
   = [Str (nl +:+ "Winner: "); Str (typeToString (getWinner final));
      Str ("!" +:+ nl)] /\
   all_of (getWinner final) (objects final)) \/
  (verdict final
   = [Str (nl +:+ "Simulation ended after maximum generations." +:+ nl)] /\
   final = ticks maxGenerations s /\
   exists o1 o2, o1 ∈ objects final /\ o2 ∈ objects final /\
                 GameObject.type o1 <> GameObject.type o2).
Proof.
  intros (k & shown & Hk & -> & Hopen & Hstop & _)%(main_loop_spec _ 0).
  unfold verdict. destruct (isGameOver (ticks k s)) eqn:Hover.
  - left. split; [done|]. by apply game_over_all_of_getWinner.
  - right. split; [done|].
    assert (k = maxGenerations) as ->.
    { destruct (decide (k < maxGenerations)%nat) as [Hlt|]; [|lia].
      specialize (Hstop Hlt). congruence. }
    split; [done|].
    destruct (objects (ticks maxGenerations s)) as [|o l] eqn:Hl.
    { assert (isGameOver (ticks maxGenerations s) = true)
        by (apply isGameOver_all_of; exists ROCK; rewrite Hl; constructor).
      congruence. }
    destruct (decide (Forall (fun o' => GameObject.type o' = GameObject.type o)
                        (o :: l))) as [Hall|Hnot].
    { assert (isGameOver (ticks maxGenerations s) = true)
        by (apply isGameOver_all_of; exists (GameObject.type o);
            by rewrite Hl).
      congruence. }
    apply not_Forall_Exists in Hnot; [|intros ?; apply _].
    apply Exists_exists in Hnot as (o2 & Ho2 & Hne).
    exists o2, o. split; [done|]. split; [apply list_elem_of_here|done].
Qed.

(** X20: the loop of [main] is defined, whatever its counter and the
    output so far, as soon as every state it can reach within
    [maxGenerations] updates is drawable. *)
Theorem main_loop_defined (maxGenerations : nat) (g : Z) (s : t F)
    (out : list (chunk F)) :
  (forall j, (j <= maxGenerations)%nat -> drawable (ticks j s)) ->
  is_Some (main_loop maxGenerations g s out).
Proof.
  revert g s out.
  induction maxGenerations as [|todo IH]; intros g s out Hdraw;
    cbn [main_loop]; [done|].
  destruct (isGameOver s); [done|]. cbv zeta.
  assert (Hnext : forall j, (j <= todo)%nat -> drawable (ticks j (update s))).
  { intros j Hj. rewrite <- ticks_succ_update. apply Hdraw. lia. }
  destruct (Z.rem g 10 =? 0); [|by apply IH].
  rewrite (displayState_defined (update s)) by (apply (Hdraw 1%nat); lia).
  by apply IH.
Qed.

Lemma new_not_over (width height : F) (seeded vel : Gen F) :
  isGameOver (new width height seeded vel).1 = false.
Proof. reflexivity. Qed.

Lemma report_spec (maxGenerations : nat) (s0 : t F) (out : list (chunk F)) :
  (0 < maxGenerations)%nat -> isGameOver s0 = false ->
  report maxGenerations s0 = Some out ->
  exists (k : nat) (first d rest last : list (chunk F)),
    (0 < k <= maxGenerations)%nat /\
    displayState s0 = Some first /\
    displayState (update s0) = Some d /\
    main_loop maxGenerations 0 s0 [] = Some (ticks k s0, d ++ rest) /\
    displayState (ticks k s0) = Some last /\
    out = [Str ("Rock Paper Scissors Simulator" +:+ nl);
           Str ("=============================" +:+ nl +:+ nl);
           Str ("Starting simulation with 5 Rocks, 5 Papers, and 5 Scissors..." +:+ nl);
           Str ("Legend: R = Rock, P = Paper, S = Scissors" +:+ nl)]
          ++ first ++ (d ++ rest)
          ++ [Str nl; Str rule50; Str nl; Str ("SIMULATION COMPLETE!" +:+ nl)]
          ++ last ++ verdict (ticks k s0).
Proof.
  intros Hmax Hopen0 Hrun. unfold report in Hrun.
  destruct (displayState s0) as [first|] eqn:Hfirst; [|done].
  destruct (main_loop maxGenerations 0 s0 []) as [[final shown]|] eqn:Hloop;
    [|done].
  destruct (displayState final) as [last|] eqn:Hlast; [|done].
  injection Hrun as <-.
  pose proof (main_loop_spec _ 0 _ _ _ _ Hloop)
    as (k & ds & Hk & -> & Hopen & Hstop & -> & Hds).
  destruct k as [|k].
  { specialize (Hstop Hmax). change (ticks 0 s0) with s0 in Hstop. congruence. }
  rewrite displayed_from_S, decide_True in Hds by done.
  inversion Hds as [|j d js rest' Hd Hrest]; subst.
  exists (S k), first, d, (concat rest'), last.
  split; [lia|]. split; [reflexivity|]. split; [exact Hd|].
  split; [reflexivity|]. split; [exact Hlast|]. reflexivity.
Qed.

Lemma run_unfold (maxGenerations : nat) (seeded vel : Gen F) :
  run maxGenerations seeded vel
  = report maxGenerations (new (of_int 100) (of_int 100) seeded vel).1.
Proof. reflexivity. Qed.

(** X21: with the standard population the game is not over at the start,
    so [main] (for any positive generation cap) makes at least one update,
    and the first state its loop displays is the one after the first
    update; its output is the banner, the initial display, the displays of
    the loop, the closing lines, the final display and the verdict. *)
Theorem run_makes_a_first_update (maxGenerations : nat) (seeded vel : Gen F)
    (out : list (chunk F)) :
  (0 < maxGenerations)%nat ->
  run maxGenerations seeded vel = Some out ->
  exists (s0 : t F) (k : nat) (first d rest last : list (chunk F)),
    s0 = (new (of_int 100) (of_int 100) seeded vel).1 /\
    (0 < k <= maxGenerations)%nat /\
    displayState s0 = Some first /\
    displayState (update s0) = Some d /\
    main_loop maxGenerations 0 s0 [] = Some (ticks k s0, d ++ rest) /\
    displayState (ticks k s0) = Some last /\
    out = [Str ("Rock Paper Scissors Simulator" +:+ nl);
           Str ("=============================" +:+ nl +:+ nl);
           Str ("Starting simulation with 5 Rocks, 5 Papers, and 5 Scissors..." +:+ nl);
           Str ("Legend: R = Rock, P = Paper, S = Scissors" +:+ nl)]
          ++ first ++ (d ++ rest)
          ++ [Str nl; Str rule50; Str nl; Str ("SIMULATION COMPLETE!" +:+ nl)]
          ++ last ++ verdict (ticks k s0).
Proof.
  intros Hmax Hrun. rewrite run_unfold in Hrun.
  destruct (report_spec maxGenerations _ out Hmax
              (new_not_over (of_int 100) (of_int 100) seeded vel) Hrun)
    as (k & first & d & rest & last & Hrest).
  exists (new (of_int 100) (of_int 100) seeded vel).1, k, first, d, rest, last.
  split; [reflexivity|exact Hrest].
Qed.
End DriverFacts.

Section DriverScenarios.
Import RPSSimulator Display Driver Scenario Runs.

Lemma head_on_loop_eq :
  main_loop 12 0 head_on [] = Some (head_on_loop.1, head_on_loop.2).
Proof. vm_compute. reflexivity. Qed.

Lemma main_loop_stops_at_first_game_over_witness :
  main_loop 12 0 head_on [] = Some (head_on_loop.1, head_on_loop.2) /\
  exists k : nat,
    (k <= 12)%nat /\ head_on_loop.1 = ticks k head_on /\
    (forall j, (j < k)%nat -> isGameOver (ticks j head_on) = false) /\
    ((k < 12)%nat -> isGameOver head_on_loop.1 = true) /\
    generation head_on_loop.1 = generation head_on + Z.of_nat k.
Proof.
  split; [exact head_on_loop_eq|].
  exact (main_loop_stops_at_first_game_over 12 head_on _ _ head_on_loop_eq).
Defined.

Lemma main_loop_display_schedule_witness :
  main_loop 12 0 head_on [] = Some (head_on_loop.1, head_on_loop.2) /\
  exists (k : nat) (shown : list (list (chunk binary32))),
    head_on_loop.1 = ticks k head_on /\ head_on_loop.2 = concat shown /\
    Forall2 (fun j d => displayState (ticks (S j) head_on) = Some d /\
                        generation (ticks (S j) head_on)
                        = generation head_on + 10 * Z.of_nat (j / 10) + 1)
            (displayed k) shown.
Proof.
  split; [exact head_on_loop_eq|].
  exact (main_loop_display_schedule 12 head_on _ _ head_on_loop_eq).
Defined.

Lemma verdict_sound_witness :
  main_loop 12 0 head_on [] = Some (head_on_loop.1, head_on_loop.2) /\
  ((verdict head_on_loop.1
    = [Str (nl +:+ "Winner: "); Str (typeToString (getWinner head_on_loop.1));
       Str ("!" +:+ nl)] /\
    all_of (getWinner head_on_loop.1) (objects head_on_loop.1)) \/
   (verdict head_on_loop.1
    = [Str (nl +:+ "Simulation ended after maximum generations." +:+ nl)] /\
    head_on_loop.1 = ticks 12 head_on /\
    exists o1 o2, o1 ∈ objects head_on_loop.1 /\ o2 ∈ objects head_on_loop.1 /\
                  GameObject.type o1 <> GameObject.type o2)).
Proof.
  split; [exact head_on_loop_eq|].
  exact (verdict_sound 12 head_on _ _ head_on_loop_eq).
Defined.

Lemma drawable_head_on_early (j : nat) :
  (j <= 2)%nat -> drawable (ticks j head_on).
Proof.
  intros Hj. destruct j as [|[|[|j]]]; [| | |lia];
    apply drawable_by_evaluation; vm_compute; reflexivity.
Qed.

Lemma main_loop_defined_witness :
  (forall j, (j <= 2)%nat -> drawable (ticks j head_on)) /\
  is_Some (main_loop 2 0 head_on []).
Proof.
  split; [exact drawable_head_on_early|].
  apply (main_loop_defined 2 0 head_on []). exact drawable_head_on_early.
Defined.

Lemma grid_run_eq : run 1 grid_gen (constant_gen (f32 1)) = Some grid_run.
Proof. vm_compute. reflexivity. Qed.

Lemma run_makes_a_first_update_witness :
  (0 < 1)%nat /\
  run 1 grid_gen (constant_gen (f32 1)) = Some grid_run /\
  exists (s0 : t binary32) (k : nat)
         (first d rest last : list (chunk binary32)),
    s0 = (new (of_int 100) (of_int 100) grid_gen (constant_gen (f32 1))).1 /\
    (0 < k <= 1)%nat /\
    displayState s0 = Some first /\
    displayState (update s0) = Some d /\
    main_loop 1 0 s0 [] = Some (ticks k s0, d ++ rest) /\
    displayState (ticks k s0) = Some last /\
    grid_run
    = [Str ("Rock Paper Scissors Simulator" +:+ nl);
       Str ("=============================" +:+ nl +:+ nl);
       Str ("Starting simulation with 5 Rocks, 5 Papers, and 5 Scissors..." +:+ nl);
       Str ("Legend: R = Rock, P = Paper, S = Scissors" +:+ nl)]
      ++ first ++ (d ++ rest)
      ++ [Str nl; Str rule50; Str nl; Str ("SIMULATION COMPLETE!" +:+ nl)]
      ++ last ++ verdict (ticks k s0).
Proof.
  split; [lia|]. split; [exact grid_run_eq|].
  exact (run_makes_a_first_update 1 grid_gen (constant_gen (f32 1)) grid_run
           ltac:(lia) grid_run_eq).
Defined.
End DriverScenarios.


(** ** The counts along a run *)

Section Outcome.
Context {F : Type} `{FloatOps F}.
Import RPSSimulator.

(** X22: the three counts that [getTypeCounts] returns are never negative
    and, after any number of generations, add up to the number of objects
    the arena started with. *)
Theorem getTypeCounts_total (s : t F) (n : nat) :
  exists rocks papers scissors : Z,
    getTypeCounts (ticks n s) = (rocks, papers, scissors) /\
    0 <= rocks /\ 0 <= papers /\ 0 <= scissors /\
    rocks + papers + scissors = Z.of_nat (length (objects s)).
Proof.
  exists (tally ROCK (objects (ticks n s))),
         (tally PAPER (objects (ticks n s))),
         (tally SCISSORS (objects (ticks n s))).
  split; [apply getTypeCounts_tally|].
  repeat (split; [apply tally_nonneg|]).
  by rewrite tally_total, ticks_length.
Qed.

Lemma tally_insert (k : ObjectType) (i : nat) (o o' : GameObject.t F)
    (l : list (GameObject.t F)) :
  l !! i = Some o ->
  tally k (<[i := o']> l)
  = tally k l - (if decide (GameObject.type o = k) then 1 else 0)
    + (if decide (GameObject.type o' = k) then 1 else 0).
Proof.
  revert i. induction l as [|p l IH]; intros [|i] Hi; try done.
  - injection Hi as ->. cbn [tally list_insert insert]. simpl. lia.
  - cbn [tally]. simpl in Hi. change (<[S i := o']> (p :: l))
      with (p :: <[i := o']> l). cbn [tally]. rewrite (IH i Hi). lia.
Qed.

Lemma tally_map_type (k : ObjectType) (f : GameObject.t F -> GameObject.t F)
    (l : list (GameObject.t F)) :
  (forall o, GameObject.type (f o) = GameObject.type o) ->
  tally k (map f l) = tally k l.
Proof.
  intros Hf. induction l as [|o l IH]; [done|].
  cbn [map tally]. by rewrite Hf, IH.
Qed.

Lemma collide_dominant (a b c : ObjectType) (i j : nat)
    (l : list (GameObject.t F)) :
  GameRules.determineWinner a b = b -> a <> b -> c <> a -> c <> b ->
  (i < j)%nat ->
  Forall (fun o => GameObject.type o <> c) l ->
  tally b l <= tally b (collide i j l).
Proof.
  intros Hab Hne Hca Hcb Hij Hl. unfold collide.
  destruct (l !! i) as [p|] eqn:Hp, (l !! j) as [q|] eqn:Hq; try lia.
  destruct (GameObject.collidesWith p q); [|lia].
  pose proof (resolveCollision_type p q) as [H1 H2].
  destruct (GameRules.resolveCollision p q) as [p' q']; simpl in *.
  rewrite Forall_lookup in Hl.
  pose proof (Hl _ _ Hp) as Hpc. pose proof (Hl _ _ Hq) as Hqc.
  rewrite (tally_insert b j q q'), (tally_insert b i p p'); [|done|].
  2: { rewrite list_lookup_insert_ne by lia. done. }
  rewrite H1, H2.
  destruct a, b, c; try congruence; try (cbv in Hab; congruence);
    clear Hab Hne Hca Hcb;
    destruct (GameObject.type p), (GameObject.type q); try congruence;
    cbn [GameRules.determineWinner];
    repeat (destruct (decide _); try congruence); lia.
Qed.

Lemma update_dominant (a b c : ObjectType) (s : t F) :
  GameRules.determineWinner a b = b -> a <> b -> c <> a -> c <> b ->
  Forall (fun o => GameObject.type o <> c) (objects s) ->
  Forall (fun o => GameObject.type o <> c) (objects (update s)) /\
  tally b (objects s) <= tally b (objects (update s)).
Proof.
  intros Hab Hne Hca Hcb Hs. split; [by apply update_without|].
  unfold update; simpl.
  apply (collisions_inv
           (fun l => Forall (fun o => GameObject.type o <> c) l /\
                     tally b (objects s) <= tally b l)).
  - intros i j l Hij [Hl Hb]. split; [by apply collide_without|].
    pose proof (collide_dominant a b c i j l Hab Hne Hca Hcb Hij Hl). lia.
  - unfold motion. split.
    + apply Forall_map. eapply Forall_impl; [exact Hs|].
      intros o Ho; simpl. by rewrite move_type.
    + rewrite tally_map_type; [lia|]. intros o. apply move_type.
Qed.

(** X23: once a kind has died out the outcome is decided.  With no object
    of kind [c] left, and [b] the kind that beats [a] among the other two:
    over any number of generations the count of [b] never decreases and
    that of [a] never increases, and if an object of kind [b] exists the
    game can only end with [b] as the winner. *)
Theorem two_kinds_left_decided (a b c : ObjectType) (s : t F) (n : nat) :
  GameRules.determineWinner a b = b -> a <> b -> c <> a -> c <> b ->
  tally c (objects s) = 0 ->
  tally b (objects s) <= tally b (objects (ticks n s)) /\
  tally a (objects (ticks n s)) <= tally a (objects s) /\
  (0 < tally b (objects s) -> isGameOver (ticks n s) = true ->
   getWinner (ticks n s) = b).
Proof.
  intros Hab Hne Hca Hcb Hc. rewrite tally_zero in Hc.
  assert (Forall (fun o => GameObject.type o <> c) (objects (ticks n s)) /\
          tally b (objects s) <= tally b (objects (ticks n s)))
    as [Hcn Hbn].
  { induction n as [|n [IHc IHb]]; [split; [done|]; simpl; lia|].
    change (ticks (S n) s) with (update (ticks n s)).
    destruct (update_dominant a b c (ticks n s) Hab Hne Hca Hcb IHc).
    split; [done|lia]. }
  split; [done|].
  pose proof (tally_total (objects s)) as Ht0.
  pose proof (tally_total (objects (ticks n s))) as Htn.
  rewrite ticks_length in Htn.
  apply tally_zero in Hc, Hcn.
  split.
  { destruct a, b, c; try congruence; lia. }
  intros Hpos Hover.
  apply game_over_all_of_getWinner in Hover.
  destruct (decide (getWinner (ticks n s) = b)) as [|Hw]; [done|].
  assert (tally b (objects (ticks n s)) = 0); [|lia].
  apply (tally_all (getWinner (ticks n s))); [exact Hover|congruence].
Qed.
End Outcome.

Section OutcomeScenarios.
Import RPSSimulator Scenario.

Lemma two_kinds_left_decided_witness :
  GameRules.determineWinner ROCK PAPER = PAPER /\
  ROCK <> PAPER /\ SCISSORS <> ROCK /\ SCISSORS <> PAPER /\
  tally SCISSORS (objects by_the_wall) = 0 /\
  tally PAPER (objects by_the_wall)
  <= tally PAPER (objects (ticks 3 by_the_wall)) /\
  tally ROCK (objects (ticks 3 by_the_wall))
  <= tally ROCK (objects by_the_wall) /\
  (0 < tally PAPER (objects by_the_wall) ->
   isGameOver (ticks 3 by_the_wall) = true ->
   getWinner (ticks 3 by_the_wall) = PAPER).
Proof.
  split; [reflexivity|]. split; [discriminate|]. split; [discriminate|].
  split; [discriminate|]. split; [reflexivity|].
  apply (two_kinds_left_decided ROCK PAPER SCISSORS by_the_wall 3);
    [reflexivity|discriminate|discriminate|discriminate|reflexivity].
Defined.
End OutcomeScenarios.

